(** * appbase: plugin registry, lifecycle and declaration-keyed registries

    A shallow embedding of [include/appbase/application.hpp] and
    [include/appbase/plugin.hpp].

    - Objects live in typed stores indexed by addresses ([nat]); [new]
      returns an address at which no object of that store lives.
    - A plugin class is known by its demangled type name; the classes of a
      program are a finite table from class name to the list given to
      [APPBASE_PLUGIN_REQUIRES].  Plugin objects are built by the default
      constructor [plugin()], which sets [_name] to the class name.
    - [assert] has its checking semantics (NDEBUG not defined): a false
      condition aborts, result [AssertFail] with the state at the abort.
    - The [options] argument of [initialize] is handed on unread and is
      left out.
    - The C++ recursion of the dependency traversal is not structural, so
      the recursive operations take a bound [fuel] on the call depth and
      answer [OutOfFuel] when it is exceeded.
    - The user hooks [plugin_initialize], [plugin_startup] and
      [plugin_shutdown] are opaque user code; every primitive effect of the
      lifecycle, hook calls included, is recorded in program order in
      [trace]. *)

From stdpp Require Import base gmap sets list strings.

(** ** Data model *)

(** [abstract_plugin::state] *)
Inductive state : Type := registered | initialized | started | stopped.

#[global] Instance state_eq_dec : EqDecision state.
Proof. solve_decision. Defined.

(** The data members of [plugin<Impl>]. *)
Record plugin : Type := Plugin { _state : state; _name : string }.

#[global] Instance plugin_eq_dec : EqDecision plugin.
Proof. solve_decision. Defined.

(** A declaration token ([MethodDecl] / [ChannelDecl]): [decl_id] stands for
    [std::type_index(typeid(Decl))], [decl_type] for [Decl::method_type] or
    [Decl::channel_type]. *)
Record decl : Type := Decl { decl_id : string; decl_type : string }.

(** A channel object keeps the io_service it was made with. *)
Record channel : Type := Channel { channel_type : string; channel_io : nat }.

#[global] Instance channel_eq_dec : EqDecision channel.
Proof. solve_decision. Defined.

Inductive event : Type :=
| New (p : nat) (name : string)     (* [new Plugin()] *)
| SetState (p : nat) (s : state)    (* assignment to [_state] *)
| PluginInitialize (p : nat)        (* hook [Impl::plugin_initialize] *)
| PluginStartup (p : nat)           (* hook [Impl::plugin_startup] *)
| PluginShutdown (p : nat)          (* hook [Impl::plugin_shutdown] *)
| PluginInitialized (p : nat)       (* notification [application::plugin_initialized] *)
| PluginStarted (p : nat).          (* notification [application::plugin_started] *)

#[global] Instance event_eq_dec : EqDecision event.
Proof. solve_decision. Defined.

Record application : Type := Application {
  plugins : gmap string nat;            (* map<string, unique_ptr<abstract_plugin>> *)
  initialized_plugins : list nat;       (* vector<abstract_plugin*> *)
  running_plugins : list nat;           (* vector<abstract_plugin*> *)
  methods : gmap string nat;            (* map<type_index, erased_method_ptr> *)
  channels : gmap string nat;           (* map<type_index, erased_channel_ptr> *)
  io_serv : nat;                        (* shared_ptr<io_service> *)
  plugin_store : gmap nat plugin;       (* live plugin objects *)
  method_store : gmap nat string;       (* live method objects, by method_type *)
  channel_store : gmap nat channel;     (* live channel objects *)
  trace : list event
}.

#[global] Instance application_eq_dec : EqDecision application.
Proof. solve_decision. Defined.

(** The orchestrator as constructed: nothing registered, nothing alive. *)
Definition application_new (io : nat) : application :=
  Application ∅ [] [] ∅ ∅ io ∅ ∅ ∅ [].

(** ** Outcomes *)

Inductive result (A : Type) : Type :=
| Ok (a : A)                    (* normal return *)
| AssertFail (at_abort : application)
                                (* an [assert] was violated: abort, in this state *)
| Fault                         (* a pointer to no live object was dereferenced *)
| OutOfFuel.                    (* call depth above the bound *)
Arguments Ok {A} a.
Arguments AssertFail {A} at_abort.
Arguments Fault {A}.
Arguments OutOfFuel {A}.

#[global] Instance result_eq_dec {A} `{EqDecision A} : EqDecision (result A).
Proof. solve_decision. Defined.

#[global] Instance result_bind : MBind result := λ A B k r,
  match r with
  | Ok a => k a
  | AssertFail a => AssertFail a
  | Fault => Fault
  | OutOfFuel => OutOfFuel
  end.

(** Field updates. *)
Definition set_plugins (f : gmap string nat → gmap string nat) (a : application) :=
  Application (f (plugins a)) (initialized_plugins a) (running_plugins a)
    (methods a) (channels a) (io_serv a) (plugin_store a) (method_store a)
    (channel_store a) (trace a).

Definition set_plugin_store (f : gmap nat plugin → gmap nat plugin) (a : application) :=
  Application (plugins a) (initialized_plugins a) (running_plugins a)
    (methods a) (channels a) (io_serv a) (f (plugin_store a)) (method_store a)
    (channel_store a) (trace a).

(** One more effect on the trace. *)
Definition log (e : event) (a : application) :=
  Application (plugins a) (initialized_plugins a) (running_plugins a)
    (methods a) (channels a) (io_serv a) (plugin_store a) (method_store a)
    (channel_store a) (trace a ++ [e]).

(** [new Plugin()]: a registered object of class [name] at address [p]. *)
Definition new_plugin (p : nat) (name : string) (a : application) : application :=
  log (New p name) (set_plugin_store <[p := Plugin registered name]> a).

(** [this->_state = s] *)
Definition set_state (this : nat) (s : state) (a : application) : application :=
  log (SetState this s)
    (set_plugin_store (alter (λ o, Plugin s (_name o)) this) a).

(** The plugin object at address [this]. *)
Definition deref (this : nat) (a : application) : result plugin :=
  match plugin_store a !! this with
  | Some o => Ok o
  | None => Fault
  end.

(** [plugin::get_state] *)
Definition get_state (this : nat) (a : application) : result state :=
  o ← deref this a; Ok (_state o).

(** [application::plugin_initialized] and [application::plugin_started] *)
Definition plugin_initialized (plug : nat) (a : application) : application :=
  log (PluginInitialized plug)
    (Application (plugins a) (initialized_plugins a ++ [plug]) (running_plugins a)
       (methods a) (channels a) (io_serv a) (plugin_store a) (method_store a)
       (channel_store a) (trace a)).

Definition plugin_started (plug : nat) (a : application) : application :=
  log (PluginStarted plug)
    (Application (plugins a) (initialized_plugins a) (running_plugins a ++ [plug])
       (methods a) (channels a) (io_serv a) (plugin_store a) (method_store a)
       (channel_store a) (trace a)).

(** Modelled from the spec: [application::find_plugin(const string&)], defined
    in application.cpp; "returns the existing instance or a not-found signal;
    never constructs". *)
Definition find_plugin (name : string) (a : application) : option nat :=
  plugins a !! name.

(** ** Operations *)

(** [APPBASE_PLUGIN_REQUIRES(PLUGINS)]: for each [elem] of the list, in
    order, [visitor(app().register_plugin<elem>())].  [reg] is
    [register_plugin] at the remaining call depth. *)
Fixpoint plugin_requires
    (reg : string → application → result (nat * application))
    (visitor : nat → application → result application)
    (PLUGINS : list string) (a : application) : result application :=
  match PLUGINS with
  | [] => Ok a
  | elem :: rest =>
      '(plug, a) ← reg elem a;
      a ← visitor plug a;
      plugin_requires reg visitor rest a
  end.

Section Program.

(** The plugin classes of the program: class name to its
    [APPBASE_PLUGIN_REQUIRES] list.  A class that is not in the table
    requires nothing. *)
Variable classes : gmap string (list string).

Definition requires_of (name : string) : list string :=
  default [] (classes !! name).

(** [application::register_plugin<Plugin>], with
    [plugin::register_dependencies] (the traversal with the empty visitor)
    in line. *)
Fixpoint register_plugin (fuel : nat) (Plugin : string) (a : application)
    : result (nat * application) :=
  match fuel with
  | 0 => OutOfFuel
  | S fuel =>
      match find_plugin Plugin a with
      | Some existing => Ok (existing, a)
      | None =>
          let plug := fresh (dom (plugin_store a)) in
          let a := new_plugin plug Plugin a in
          let a := set_plugins <[Plugin := plug]> a in
          a ← plugin_requires (register_plugin fuel) (λ _ a, Ok a)
                (requires_of Plugin) a;
          Ok (plug, a)
      end
  end.

(** [plugin::initialize] *)
Fixpoint initialize (fuel : nat) (this : nat) (a : application)
    : result application :=
  match fuel with
  | 0 => OutOfFuel
  | S fuel =>
      o ← deref this a;
      a ← (if decide (_state o = registered) then
             let a := set_state this initialized a in
             a ← plugin_requires (register_plugin fuel) (initialize fuel)
                   (requires_of (_name o)) a;
             let a := log (PluginInitialize this) a in
             Ok (plugin_initialized this a)
           else Ok a);
      s ← get_state this a;
      if decide (s = initialized) then Ok a else AssertFail a
  end.

(** [plugin::startup] *)
Fixpoint startup (fuel : nat) (this : nat) (a : application)
    : result application :=
  match fuel with
  | 0 => OutOfFuel
  | S fuel =>
      o ← deref this a;
      a ← (if decide (_state o = initialized) then
             let a := set_state this started a in
             a ← plugin_requires (register_plugin fuel) (startup fuel)
                   (requires_of (_name o)) a;
             let a := log (PluginStartup this) a in
             Ok (plugin_started this a)
           else Ok a);
      s ← get_state this a;
      if decide (s = started) then Ok a else AssertFail a
  end.

(** [plugin::shutdown] *)
Definition shutdown (this : nat) (a : application) : result application :=
  o ← deref this a;
  if decide (_state o = started) then
    let a := set_state this stopped a in
    Ok (log (PluginShutdown this) a)
  else Ok a.

(** Modelled from the spec: [application::initialize_impl], defined in
    application.cpp; "for each plugin in explicit_set, invoke initialize".
    A null entry (a class that is not registered) is no plugin and is
    passed over. *)
Fixpoint initialize_impl (fuel : nat) (autostart_plugins : list (option nat))
    (a : application) : result application :=
  match autostart_plugins with
  | [] => Ok a
  | Some plug :: rest => a ← initialize fuel plug a; initialize_impl fuel rest a
  | None :: rest => initialize_impl fuel rest a
  end.

(** [application::initialize<Plugin...>], the [initialize_all] of the
    specification: [initialize_impl(argc, argv, {find_plugin<Plugin>()...})]. *)
Definition initialize_all (fuel : nat) (explicit_set : list string)
    (a : application) : result application :=
  initialize_impl fuel ((λ P, find_plugin P a) <$> explicit_set) a.

(** [for (auto plugin : l) plugin->startup();] *)
Fixpoint startup_each (fuel : nat) (l : list nat) (a : application)
    : result application :=
  match l with
  | [] => Ok a
  | plug :: rest => a ← startup fuel plug a; startup_each fuel rest a
  end.

(** Modelled from the spec: [application::startup], defined in
    application.cpp; "invoke startup on every plugin that was initialized, in
    the order recorded by initialized_order". *)
Definition startup_all (fuel : nat) (a : application) : result application :=
  startup_each fuel (initialized_plugins a) a.

(** [for (auto plugin : l) plugin->shutdown();] *)
Fixpoint shutdown_each (l : list nat) (a : application) : result application :=
  match l with
  | [] => Ok a
  | plug :: rest => a ← shutdown plug a; shutdown_each rest a
  end.

(** Modelled from the spec: [application::shutdown], defined in
    application.cpp; "invoke shutdown on every plugin in started_order,
    traversed back-to-front". *)
Definition shutdown_all (a : application) : result application :=
  shutdown_each (reverse (running_plugins a)) a.

(** The two forward transitions have one shape: [initialize] is the
    transition from [registered] to [initialized], [startup] the one from
    [initialized] to [started].  [advance] is that shape, which the lemmas
    below reason about once ([initialize_advance], [startup_advance]). *)
Inductive phase : Type := Init | Start.

Definition phase_from (ph : phase) : state :=
  match ph with Init => registered | Start => initialized end.
Definition phase_to (ph : phase) : state :=
  match ph with Init => initialized | Start => started end.
Definition phase_hook (ph : phase) : nat → event :=
  match ph with Init => PluginInitialize | Start => PluginStartup end.
Definition phase_notify (ph : phase) : nat → application → application :=
  match ph with Init => plugin_initialized | Start => plugin_started end.
Definition phase_order (ph : phase) (a : application) : list nat :=
  match ph with Init => initialized_plugins a | Start => running_plugins a end.
Definition phase_other (ph : phase) : phase :=
  match ph with Init => Start | Start => Init end.

Fixpoint advance (ph : phase) (fuel : nat) (this : nat) (a : application)
    : result application :=
  match fuel with
  | 0 => OutOfFuel
  | S fuel =>
      o ← deref this a;
      a ← (if decide (_state o = phase_from ph) then
             let a := set_state this (phase_to ph) a in
             a ← plugin_requires (register_plugin fuel) (advance ph fuel)
                   (requires_of (_name o)) a;
             let a := log (phase_hook ph this) a in
             Ok (phase_notify ph this a)
           else Ok a);
      s ← get_state this a;
      if decide (s = phase_to ph) then Ok a else AssertFail a
  end.

End Program.

(** [application::get_method<MethodDecl>] *)
Definition get_method (MethodDecl : decl) (a : application) : nat * application :=
  let key := decl_id MethodDecl in
  match methods a !! key with
  | Some itr => (itr, a)
  | None =>
      let m := fresh (dom (method_store a)) in
      (m, Application (plugins a) (initialized_plugins a) (running_plugins a)
            (<[key := m]> (methods a)) (channels a) (io_serv a) (plugin_store a)
            (<[m := decl_type MethodDecl]> (method_store a))
            (channel_store a) (trace a))
  end.

(** [application::get_channel<ChannelDecl>] *)
Definition get_channel (ChannelDecl : decl) (a : application) : nat * application :=
  let key := decl_id ChannelDecl in
  match channels a !! key with
  | Some itr => (itr, a)
  | None =>
      let c := fresh (dom (channel_store a)) in
      (c, Application (plugins a) (initialized_plugins a) (running_plugins a)
            (methods a) (<[key := c]> (channels a)) (io_serv a) (plugin_store a)
            (method_store a)
            (<[c := Channel (decl_type ChannelDecl) (io_serv a)]> (channel_store a))
            (trace a))
  end.

(** ** Specification vocabulary *)

(** [x] occurs in [l] at a smaller index than [y]. *)
Definition occurs_before (x y : nat) (l : list nat) : Prop :=
  ∃ i j, l !! i = Some x ∧ l !! j = Some y ∧ i < j.

(** Every object of [s] is alive in [s'] under the same name. *)
Definition store_le (s s' : gmap nat plugin) : Prop :=
  ∀ p o, s !! p = Some o → ∃ o', s' !! p = Some o' ∧ _name o' = _name o.

(** [a'] extends [a]: registry, logs and trace only grow, objects stay alive
    under their names, the method and channel registries are the same. *)
Record grows (a a' : application) : Prop := Grows {
  grows_plugins : plugins a ⊆ plugins a';
  grows_initialized : initialized_plugins a `prefix_of` initialized_plugins a';
  grows_running : running_plugins a `prefix_of` running_plugins a';
  grows_trace : trace a `prefix_of` trace a';
  grows_store : store_le (plugin_store a) (plugin_store a');
  grows_methods : methods a' = methods a;
  grows_channels : channels a' = channels a
}.

(** The plugins whose [plugin_shutdown] hook ran, in the order of the calls. *)
Definition shutdown_hooks (tr : list event) : list nat :=
  omap (λ e, match e with PluginShutdown p => Some p | _ => None end) tr.

(** A declaration-keyed registry is sound when its entries point to live
    objects and no object is shared by two tokens. *)
Definition registry_ok (reg : gmap string nat) (alive : gset nat) : Prop :=
  (∀ k m, reg !! k = Some m → m ∈ alive) ∧
  (∀ k k' m, reg !! k = Some m → reg !! k' = Some m → k = k').

(** Plugins in state [s] are still in state [s]. *)
Definition keeps (s : state) (a a' : application) : Prop :=
  ∀ p, get_state p a = Ok s → get_state p a' = Ok s.

(** The recursion behind [run] is unbounded: no call depth is enough. *)
Definition recurses_without_bound {A} (run : nat → result A) : Prop :=
  ∀ fuel, run fuel = OutOfFuel.

(** The table is acyclic: [rank] decreases along every requirement. *)
Definition ranked (classes : gmap string (list string)) (rank : string → nat)
    : Prop :=
  map_Forall (λ n ds, Forall (λ d, rank d < rank n) ds) classes.

(** The transition [initialize] in the order in which section 4.1 of the
    specification lists its effects: "only fires from registered. Effects, in
    order: (a) recursively initialize every declared dependency; (b) run the
    plugin's own initialization hook; (c) transition to initialized; (d)
    notify the orchestrator".  Compared with [initialize] above. *)
Fixpoint initialize_as_specified (classes : gmap string (list string))
    (fuel : nat) (this : nat) (a : application) : result application :=
  match fuel with
  | 0 => OutOfFuel
  | S fuel =>
      o ← deref this a;
      if decide (_state o = registered) then
        a ← plugin_requires (register_plugin classes fuel)
              (initialize_as_specified classes fuel)
              (requires_of classes (_name o)) a;
        let a := log (PluginInitialize this) a in
        let a := set_state this initialized a in
        Ok (plugin_initialized this a)
      else Ok a
  end.

(** ** Measure of the dependency traversal *)

(** Every live plugin object is the one the registry holds under its name
    (objects come from [register_plugin] only). *)
Definition store_registered (a : application) : Prop :=
  map_Forall (λ p o, plugins a !! _name o = Some p) (plugin_store a).

(** The state of the plugin registered for class [n], if any. *)
Definition state_of_class (a : application) (n : string) : option state :=
  p ← plugins a !! n; o ← plugin_store a !! p; Some (_state o).

(** Class [n] has not made the transition of phase [ph] yet. *)
Definition waiting (ph : phase) (a : application) (n : string) : Prop :=
  ∀ s, state_of_class a n = Some s → s = phase_from ph.

#[global] Instance waiting_dec ph a n : Decision (waiting ph a n).
Proof.
  unfold waiting. destruct (state_of_class a n) as [s|].
  - destruct (decide (s = phase_from ph)) as [->|Hne].
    + left. by intros s [= <-].
    + right. intros H. by apply Hne, H.
  - left. intros s [=].
Defined.

Definition unregistered (classes : gmap string (list string)) (a : application)
    : gset string :=
  filter (λ n, plugins a !! n = None) (dom classes).

Definition pending (classes : gmap string (list string)) (ph : phase)
    (a : application) : gset string :=
  filter (waiting ph a) (dom classes).

(** Classes of the table still to be registered plus classes still to make the
    transition: each nested call of the traversal takes one away. *)
Definition depth_bound (classes : gmap string (list string)) (ph : phase)
    (a : application) : nat :=
  size (unregistered classes a) + size (pending classes ph a).

(** ** Invariants of the dependency traversal (acyclic tables) *)

(** The states from which the transition of phase [ph] returns normally. *)
Definition good (ph : phase) (s : state) : Prop :=
  s = phase_from ph ∨ s = phase_to ph.

(** Invariant of phase [ph]; [busy] holds the plugins whose transition is in
    progress (state already set, notification still to come). *)
Record Inv (classes : gmap string (list string)) (ph : phase) (busy : gset nat)
    (a : application) : Prop := {
  inv_plugins : ∀ n p, plugins a !! n = Some p →
      ∃ s, plugin_store a !! p = Some (Plugin s n);
  inv_good : ∀ p s n d,
      plugin_store a !! p = Some (Plugin s n) → good ph s →
      d ∈ requires_of classes n →
      ∃ pd sd, plugins a !! d = Some pd ∧
               plugin_store a !! pd = Some (Plugin sd d) ∧ good ph sd;
  inv_done : ∀ p, get_state p a = Ok (phase_to ph) →
      p ∈ phase_order ph a ∨ p ∈ busy;
  inv_order_state : ∀ p, p ∈ phase_order ph a →
      get_state p a = Ok (phase_to ph);
  inv_nodup : NoDup (phase_order ph a);
  inv_deps : ∀ p s n d,
      p ∈ phase_order ph a → plugin_store a !! p = Some (Plugin s n) →
      d ∈ requires_of classes n →
      ∃ pd, plugins a !! d = Some pd ∧ occurs_before pd p (phase_order ph a)
}.

(** What a transition of phase [ph] may change when nothing is left to
    register: states move from the entry state to the target state, and the
    plugins that moved are appended to the log of the phase. *)
Record steps (ph : phase) (a a' : application) : Prop := {
  steps_plugins : plugins a' = plugins a;
  steps_fwd : ∀ p s n, plugin_store a !! p = Some (Plugin s n) →
      ∃ s', plugin_store a' !! p = Some (Plugin s' n) ∧
            (s' = s ∨ (s = phase_from ph ∧ s' = phase_to ph));
  steps_bwd : ∀ p s' n, plugin_store a' !! p = Some (Plugin s' n) →
      ∃ s, plugin_store a !! p = Some (Plugin s n);
  steps_order : ∃ l, phase_order ph a' = phase_order ph a ++ l ∧
      ∀ p, p ∈ l → get_state p a = Ok (phase_from ph);
  steps_other : phase_order (phase_other ph) a' = phase_order (phase_other ph) a
}.

(** Invariant of registration before any transition; [busy] holds the classes
    whose dependencies are being registered. *)
Record RegInv (classes : gmap string (list string)) (busy : gset string)
    (a : application) : Prop := {
  reg_plugins : ∀ n p, plugins a !! n = Some p →
      plugin_store a !! p = Some (Plugin registered n);
  reg_store : store_registered a;
  reg_closed : ∀ n p d, plugins a !! n = Some p → n ∉ busy →
      d ∈ requires_of classes n → is_Some (plugins a !! d);
  reg_initialized : initialized_plugins a = [];
  reg_running : running_plugins a = []
}.

(** ** Scenarios *)

(** The value of a run that returned, [d] otherwise. *)
Definition the {A} (d : A) (r : result A) : A :=
  match r with Ok a => a | _ => d end.

(** [Net] requires [Config] (the scenario of the specification). *)
Definition net_config : gmap string (list string) :=
  {[ "Net" := ["Config"]; "Config" := [] ]}%string.

(** A dependency cycle: [A] requires [B] and [B] requires [A]. *)
Definition cyclic_pair : gmap string (list string) :=
  {[ "A" := ["B"]; "B" := ["A"] ]}%string.

(** A class that requires itself. *)
Definition self_cycle : gmap string (list string) :=
  {[ "A" := ["A"] ]}%string.

(** A rank for [net_config]. *)
Definition net_rank (n : string) : nat :=
  if decide (n = "Net"%string) then 1 else 0.

(** The scenario of the specification, step by step. *)
Definition net_registered : application :=
  snd (the (0, application_new 0)
         (register_plugin net_config 3 "Net" (application_new 0))).
Definition net_initialized : application :=
  the net_registered (initialize_all net_config 3 ["Net"%string] net_registered).
Definition net_started : application :=
  the net_initialized (startup_all net_config 3 net_initialized).
Definition net_stopped : application :=
  the net_started (shutdown_all net_started).

(** The cycle, registered from [A]. *)
Definition cyclic_registered : application :=
  snd (the (0, application_new 0)
         (register_plugin cyclic_pair 3 "A" (application_new 0))).

(** ** Further operations of the two headers *)

(** [plugin::name] *)
Definition name (this : nat) (a : application) : result string :=
  o ← deref this a; Ok (_name o).

(** [application::get_plugin<Plugin>]: [*find_plugin<Plugin>()], the
    dereference of a null pointer when the class is not registered. *)
Definition get_plugin (Plugin : string) (a : application) : result nat :=
  match find_plugin Plugin a with
  | Some ptr => Ok ptr
  | None => Fault
  end.

(** [application::get_io_service] *)
Definition get_io_service (a : application) : nat := io_serv a.

(** ** Vocabulary of the further properties *)

(** The position of a state in [enum state]. *)
Definition level (s : state) : nat :=
  match s with registered => 0 | initialized => 1 | started => 2 | stopped => 3 end.

(** The registry and the live plugin objects agree: an entry points to a
    live object of that class, and every live object is the entry of its
    class. *)
Definition sound (a : application) : Prop :=
  map_Forall (λ n p, _name <$> plugin_store a !! p = Some n) (plugins a) ∧
  store_registered a.

(** [a'] keeps the property [I] of [a]. *)
Definition preserves (I : application → Prop) (a a' : application) : Prop :=
  I a → I a'.

(** Every registered class outside [busy] has its requirements registered. *)
Definition closed (classes : gmap string (list string)) (busy : gset string)
    (a : application) : Prop :=
  ∀ n p d, plugins a !! n = Some p → n ∉ busy →
    d ∈ requires_of classes n → is_Some (plugins a !! d).

Definition is_New (e : event) : Prop :=
  match e with New _ _ => True | _ => False end.

(** What a registration may change: new objects, all [registered], their
    registry entries and their [New] events, and nothing else. *)
Record only_registers (a a' : application) : Prop := {
  or_initialized : initialized_plugins a' = initialized_plugins a;
  or_running : running_plugins a' = running_plugins a;
  or_store : plugin_store a ⊆ plugin_store a';
  or_new : ∀ q o, plugin_store a' !! q = Some o →
      plugin_store a !! q = Some o ∨
      (plugin_store a !! q = None ∧ _state o = registered);
  or_trace : ∃ news, trace a' = trace a ++ news ∧ Forall is_New news
}.

(** What a transition of phase [ph] may change in the states: a plugin
    that was alive keeps its state or makes the move of the phase. *)
Record moves (ph : phase) (a a' : application) : Prop := {
  moves_other : phase_order (phase_other ph) a' = phase_order (phase_other ph) a;
  moves_alive : ∀ p s, get_state p a = Ok s →
      get_state p a' = Ok s ∨
      (s = phase_from ph ∧ get_state p a' = Ok (phase_to ph));
  moves_new : ∀ p s', get_state p a' = Ok s' → get_state p a = Fault →
      s' = registered ∨ (phase_from ph = registered ∧ s' = phase_to ph)
}.

(** The plugins whose [plugin_initialize] hook, [plugin_startup] hook ran, in
    the order of the calls. *)
Definition initialize_hooks (tr : list event) : list nat :=
  omap (λ e, match e with PluginInitialize p => Some p | _ => None end) tr.
Definition startup_hooks (tr : list event) : list nat :=
  omap (λ e, match e with PluginStartup p => Some p | _ => None end) tr.

(** Each log is the list of the hooks that ran. *)
Definition hooks_logged (a : application) : Prop :=
  initialize_hooks (trace a) = initialized_plugins a ∧
  startup_hooks (trace a) = running_plugins a.

(** Every plugin that was alive is alive, at the same level or further. *)
Definition forward (a a' : application) : Prop :=
  ∀ p s, get_state p a = Ok s → ∃ s', get_state p a' = Ok s' ∧ level s ≤ level s'.

(** The declaration-keyed registries, their objects and the io_service are
    the same. *)
Record registries_untouched (a a' : application) : Prop := {
  ru_methods : methods a' = methods a;
  ru_channels : channels a' = channels a;
  ru_method_store : method_store a' = method_store a;
  ru_channel_store : channel_store a' = channel_store a;
  ru_io_serv : io_serv a' = io_serv a
}.

(** Every live channel was made with the io_service of the application. *)
Definition channels_share_io (a : application) : Prop :=
  map_Forall (λ _ ch, channel_io ch = io_serv a) (channel_store a).

(** One call of the interface that returned. *)
Inductive call (classes : gmap string (list string))
    : application → application → Prop :=
| call_register_plugin fuel P a p a' :
    register_plugin classes fuel P a = Ok (p, a') → call classes a a'
| call_initialize fuel this a a' :
    initialize classes fuel this a = Ok a' → call classes a a'
| call_startup fuel this a a' :
    startup classes fuel this a = Ok a' → call classes a a'
| call_shutdown this a a' :
    shutdown this a = Ok a' → call classes a a'
| call_get_method D a : call classes a (get_method D a).2
| call_get_channel D a : call classes a (get_channel D a).2.

(** The applications a program can be in: the new one, then any sequence of
    calls that returned. *)
Definition reachable (classes : gmap string (list string)) (a : application)
    : Prop :=
  ∃ io, rtc (call classes) (application_new io) a.

(** The declaration-keyed registries are in order: entries point to live
    objects without sharing, every object is the entry of some token, and
    channels hold the io_service of the application. *)
Definition registries_ok (a : application) : Prop :=
  registry_ok (methods a) (dom (method_store a)) ∧
  registry_ok (channels a) (dom (channel_store a)) ∧
  size (method_store a) = size (methods a) ∧
  size (channel_store a) = size (channels a) ∧
  channels_share_io a.

(** Plugin [p] is alive and has made the transition of phase [ph]: it is in
    the target state of the phase or further. *)
Definition at_least (ph : phase) (a : application) (p : nat) : Prop :=
  ∃ s, get_state p a = Ok s ∧ level (phase_to ph) ≤ level s.

(** The log of phase [ph] is exact and the requirements are ready; [busy]
    holds the plugins whose transition is in progress. *)
Record Tidy (classes : gmap string (list string)) (ph : phase) (busy : gset nat)
    (a : application) : Prop := {
  td_nodup : NoDup (phase_order ph a);
  td_in : ∀ p, p ∈ phase_order ph a → at_least ph a p;
  td_done : ∀ p, at_least ph a p → p ∈ phase_order ph a ∨ p ∈ busy;
  td_busy : ∀ p, p ∈ busy → at_least ph a p ∧ p ∉ phase_order ph a;
  td_ready : ∀ p n d, at_least ph a p → p ∉ busy → name p a = Ok n →
      d ∈ requires_of classes n →
      ∃ pd, find_plugin d a = Some pd ∧ at_least ph a pd
}.

(** Plugin [p] is in a state from which the transition of phase [ph]
    returns normally. *)
Definition visitable (ph : phase) (a : application) (p : nat) : Prop :=
  ∃ s, get_state p a = Ok s ∧ good ph s.

(** Nothing stands in the way of phase [ph]: what a visitable plugin
    requires is registered and visitable. *)
Definition clear (classes : gmap string (list string)) (ph : phase)
    (a : application) : Prop :=
  sound a ∧
  ∀ p n d, visitable ph a p → name p a = Ok n → d ∈ requires_of classes n →
    ∃ pd, find_plugin d a = Some pd ∧ visitable ph a pd.

(** [Config] registered, initialized and started on its own; [Net], which
    requires it, registered only afterwards. *)
Definition late_net : application :=
  let a0 := snd (the (0, application_new 0)
                   (register_plugin net_config 3 "Config" (application_new 0))) in
  let a1 := the a0 (initialize net_config 3 0 a0) in
  let a2 := the a1 (startup net_config 3 0 a1) in
  snd (the (0, a2) (register_plugin net_config 3 "Net" a2)).

(** ** The two transitions as instances of [advance] *)

Lemma initialize_advance classes fuel :
  initialize classes fuel = advance classes Init fuel.
Proof. induction fuel as [|fuel IH]; simpl; [done|]. by rewrite IH. Qed.

Lemma startup_advance classes fuel :
  startup classes fuel = advance classes Start fuel.
Proof. induction fuel as [|fuel IH]; simpl; [done|]. by rewrite IH. Qed.

(** ** What every operation preserves

    [grows a a']: the registry, the two order logs and the trace of [a'] extend
    those of [a], every object of [a] is still alive in [a'] under the same
    name, and the method and channel registries are untouched. *)

Lemma bind_Ok {A B} (r : result A) (k : A → result B) (b : B) :
  r ≫= k = Ok b → ∃ a, r = Ok a ∧ k a = Ok b.
Proof. destruct r; simpl; intros; try discriminate; eauto. Qed.

Lemma grows_refl a : grows a a.
Proof.
  split; try reflexivity.
  intros p o Hp. eauto.
Qed.

Lemma grows_trans a b c : grows a b → grows b c → grows a c.
Proof.
  intros [H1 H2 H3 H4 H5 H6 H7] [G1 G2 G3 G4 G5 G6 G7].
  split; try (etrans; eassumption).
  intros p o Hp. destruct (H5 p o Hp) as (o' & Ho' & Hn).
  destruct (G5 p o' Ho') as (o'' & Ho'' & Hn'). exists o''. split; [done|congruence].
Qed.

#[global] Instance grows_preorder : PreOrder grows.
Proof. split; [exact grows_refl | exact grows_trans]. Qed.

Lemma grows_log e a : grows a (log e a).
Proof.
  split; simpl; try reflexivity; [by apply prefix_app_r|].
  intros p o Hp. eauto.
Qed.

Lemma grows_set_state this s a : grows a (set_state this s a).
Proof.
  split; simpl; try reflexivity; [by apply prefix_app_r|].
  intros p o Hp. rewrite lookup_alter. case_decide as Hd; subst.
  - rewrite Hp. simpl. eauto.
  - eauto.
Qed.

Lemma grows_notify ph this a : grows a (phase_notify ph this a).
Proof.
  destruct ph; (split; simpl; try reflexivity; try (by apply prefix_app_r);
    intros p o Hp; eauto).
Qed.

Lemma grows_register_new P a :
  plugins a !! P = None →
  grows a (set_plugins <[P := fresh (dom (plugin_store a))]>
             (new_plugin (fresh (dom (plugin_store a))) P a)).
Proof.
  intros HP. split; simpl; try reflexivity.
  - by apply insert_subseteq.
  - by apply prefix_app_r.
  - intros p o Hp. exists o. split; [|done].
    rewrite lookup_insert_ne; [done|]. intros <-.
    apply (is_fresh (dom (plugin_store a))). apply elem_of_dom. eauto.
Qed.

Section Grows.
Variable classes : gmap string (list string).

(** A preorder that every registration and every visit respects is respected
    by the whole traversal. *)
Lemma plugin_requires_preorder (R : relation application) `{!PreOrder R}
    reg visitor :
  (∀ elem a p a', reg elem a = Ok (p, a') → R a a') →
  (∀ p a a', visitor p a = Ok a' → R a a') →
  ∀ PLUGINS a a', plugin_requires reg visitor PLUGINS a = Ok a' → R a a'.
Proof.
  intros Hreg Hvis PLUGINS.
  induction PLUGINS as [|elem rest IH]; simpl; intros a a' H.
  - injection H as <-. reflexivity.
  - apply bind_Ok in H as ([p a1] & H1 & H). apply bind_Ok in H as (a2 & H2 & H).
    etrans; [by eapply Hreg|]. etrans; [by eapply Hvis|]. by apply IH.
Qed.

(** The traversal returns when each registration returns and each visit
    returns, [Pre] being an invariant of both. *)
Lemma plugin_requires_total (Pre : application → Prop) reg visitor :
  ∀ PLUGINS,
  (∀ elem a, elem ∈ PLUGINS → Pre a →
     ∃ p a1, reg elem a = Ok (p, a1) ∧ ∃ a2, visitor p a1 = Ok a2 ∧ Pre a2) →
  ∀ a, Pre a → ∃ a', plugin_requires reg visitor PLUGINS a = Ok a' ∧ Pre a'.
Proof.
  induction PLUGINS as [|elem rest IH]; simpl; intros Hstep a Ha.
  - eauto.
  - destruct (Hstep elem a) as (p & a1 & -> & a2 & H2 & Ha2);
      [by apply list_elem_of_here | done |].
    simpl. rewrite H2. simpl. apply IH; [|done].
    intros e b He. apply Hstep. by apply list_elem_of_further.
Qed.

(** The traversal does not exceed the call depth when no registration and no
    visit does, a visit being free to abort. *)
Lemma plugin_requires_terminates (Pre : application → Prop) reg visitor :
  ∀ PLUGINS,
  (∀ elem a, elem ∈ PLUGINS → Pre a →
     ∃ p a1, reg elem a = Ok (p, a1) ∧ visitor p a1 ≠ OutOfFuel ∧
             ∀ a2, visitor p a1 = Ok a2 → Pre a2) →
  ∀ a, Pre a →
    plugin_requires reg visitor PLUGINS a ≠ OutOfFuel ∧
    ∀ a', plugin_requires reg visitor PLUGINS a = Ok a' → Pre a'.
Proof.
  induction PLUGINS as [|elem rest IH]; simpl; intros Hstep a Ha.
  - split; [done|]. by intros a' [= <-].
  - destruct (Hstep elem a) as (p & a1 & -> & Hv & Ha2);
      [by apply list_elem_of_here | done |].
    simpl. destruct (visitor p a1) as [a2|a2| |] eqn:H2; simpl; try done.
    apply IH; [|by apply Ha2].
    intros e b He. apply Hstep. by apply list_elem_of_further.
Qed.

Lemma register_plugin_grows fuel : ∀ P a p a',
  register_plugin classes fuel P a = Ok (p, a') →
  grows a a' ∧ plugins a' !! P = Some p.
Proof.
  induction fuel as [|fuel IH]; simpl; intros P a p a' H; [discriminate|].
  unfold find_plugin in H. destruct (plugins a !! P) as [existing|] eqn:HP.
  - injection H as <- <-. split; [reflexivity|done].
  - apply bind_Ok in H as (a1 & H1 & H). injection H as <- <-.
    apply (plugin_requires_preorder grows) in H1.
    + split.
      * etrans; [by apply grows_register_new|done].
      * eapply lookup_weaken; [|apply (grows_plugins _ _ H1)].
        simpl. by rewrite lookup_insert_eq.
    + intros elem b q b' Hb. by apply IH in Hb as [? _].
    + intros q b b' Hb. injection Hb as <-. reflexivity.
Qed.

Lemma advance_grows ph fuel : ∀ this a a',
  advance classes ph fuel this a = Ok a' → grows a a'.
Proof.
  induction fuel as [|fuel IH]; simpl; intros this a a' H; [discriminate|].
  apply bind_Ok in H as (o & Ho & H). apply bind_Ok in H as (a1 & H1 & H).
  apply bind_Ok in H as (s & Hs & H). case_decide; [|discriminate].
  injection H as <-.
  case_decide; [|by injection H1 as <-].
  apply bind_Ok in H1 as (a2 & H2 & H1). injection H1 as <-.
  apply (plugin_requires_preorder grows) in H2.
  - etrans; [apply grows_set_state|]. etrans; [exact H2|].
    etrans; [apply grows_log|]. apply grows_notify.
  - intros elem b q b' Hb. by apply register_plugin_grows in Hb as [? _].
  - intros q b b' Hb. by eapply IH.
Qed.

End Grows.

(** ** Guards of the lifecycle transitions *)

Lemma get_state_Some this a s :
  get_state this a = Ok s ↔ ∃ n, plugin_store a !! this = Some (Plugin s n).
Proof.
  unfold get_state, deref. destruct (plugin_store a !! this) as [[s' n]|]; simpl.
  - split; [intros [= <-]; eauto | intros (n' & [= <- <-]); done].
  - split; [discriminate | intros (? & ?); discriminate].
Qed.

Lemma net_states :
  get_state 0 net_registered = Ok registered ∧
  get_state 0 net_initialized = Ok initialized ∧
  get_state 0 net_started = Ok started ∧
  get_state 0 net_stopped = Ok stopped.
Proof. by vm_compute. Qed.

(** C6: [startup] on a plugin whose state is [registered] fails the assertion
    on the final state: the call aborts, the guarded block not having run. *)
Theorem startup_registered_aborts classes fuel this a :
  get_state this a = Ok registered →
  startup classes (S fuel) this a = AssertFail a.
Proof.
  intros Hs. pose proof Hs as (n & Ho)%get_state_Some.
  simpl. unfold deref. rewrite Ho. simpl. rewrite Hs. done.
Qed.

Lemma startup_registered_aborts_witness :
  get_state 0 net_registered = Ok registered ∧
  startup net_config 3 0 net_registered = AssertFail net_registered.
Proof.
  split; [by vm_compute|].
  apply (startup_registered_aborts net_config 2 0 net_registered). by vm_compute.
Defined.

(** C10: [shutdown] on a plugin that is not [started] returns normally with
    the application unchanged: same state, no hook, no assertion. *)
Theorem shutdown_not_started this a s :
  get_state this a = Ok s → s ≠ started →
  shutdown this a = Ok a.
Proof.
  intros (n & Ho)%get_state_Some Hne.
  unfold shutdown, deref. rewrite Ho. simpl. by case_decide.
Qed.

Lemma shutdown_not_started_witness :
  shutdown 0 net_registered = Ok net_registered ∧
  shutdown 0 net_initialized = Ok net_initialized ∧
  shutdown 0 net_stopped = Ok net_stopped.
Proof.
  split; [|split].
  - apply (shutdown_not_started 0 net_registered registered); by vm_compute.
  - apply (shutdown_not_started 0 net_initialized initialized); by vm_compute.
  - apply (shutdown_not_started 0 net_stopped stopped); by vm_compute.
Defined.

(** C5, as stated, fails: [initialize] on a started or a stopped plugin and
    [startup] on a stopped plugin are errors; they fail the assertion. *)
Lemma transition_past_entry_aborts :
  get_state 0 net_started = Ok started ∧
  initialize net_config 3 0 net_started = AssertFail net_started ∧
  get_state 0 net_stopped = Ok stopped ∧
  initialize net_config 3 0 net_stopped = AssertFail net_stopped ∧
  startup net_config 3 0 net_stopped = AssertFail net_stopped.
Proof. by vm_compute. Qed.

(** C5, amended: a transition invoked on a plugin that is already in the
    state the transition leads to ([initialize] on [initialized], [startup] on
    [started]) and [shutdown] on any plugin that is not [started] return
    normally with the application unchanged; [initialize] on a [started] or
    [stopped] plugin and [startup] on a [stopped] plugin change nothing and run
    no hook either, but fail the assertion: they abort. *)
Theorem transition_outside_entry_state classes fuel this a s :
  get_state this a = Ok s →
  (s = initialized → initialize classes (S fuel) this a = Ok a) ∧
  (s = started → startup classes (S fuel) this a = Ok a) ∧
  (s ≠ started → shutdown this a = Ok a) ∧
  (s = started ∨ s = stopped → initialize classes (S fuel) this a = AssertFail a) ∧
  (s = stopped → startup classes (S fuel) this a = AssertFail a).
Proof.
  intros Hs. pose proof Hs as (n & Ho)%get_state_Some.
  split; [|split; [|split; [|split]]].
  - intros ->. simpl. unfold deref. rewrite Ho. simpl. by rewrite Hs.
  - intros ->. simpl. unfold deref. rewrite Ho. simpl. by rewrite Hs.
  - intros Hne. unfold shutdown, deref. rewrite Ho. simpl. by case_decide.
  - intros [-> | ->]; simpl; unfold deref; rewrite Ho; simpl; by rewrite Hs.
  - intros ->. simpl. unfold deref. rewrite Ho. simpl. by rewrite Hs.
Qed.

Lemma transition_outside_entry_state_witness :
  initialize net_config 3 0 net_initialized = Ok net_initialized ∧
  startup net_config 3 0 net_started = Ok net_started ∧
  shutdown 0 net_stopped = Ok net_stopped.
Proof.
  split; [|split].
  - apply (transition_outside_entry_state net_config 2 0 net_initialized initialized);
      by vm_compute.
  - apply (transition_outside_entry_state net_config 2 0 net_started started);
      by vm_compute.
  - apply (transition_outside_entry_state net_config 2 0 net_stopped stopped);
      by vm_compute.
Defined.

(** C9: after a first [initialize] that returned normally, a second
    [initialize] of the same plugin returns with the application unchanged (no
    hook, no notification, no trace entry) and the plugin is [initialized]. *)
Theorem initialize_twice classes fuel fuel' this a a' :
  initialize classes fuel this a = Ok a' →
  get_state this a' = Ok initialized ∧
  initialize classes (S fuel') this a' = Ok a'.
Proof.
  intros H. destruct fuel as [|fuel]; simpl in H; [discriminate|].
  apply bind_Ok in H as (o & _ & H). apply bind_Ok in H as (a1 & _ & H).
  apply bind_Ok in H as (s & Hs & H). case_decide; [|discriminate].
  injection H as <-. subst s. split; [done|].
  pose proof Hs as (n & Ho)%get_state_Some.
  simpl. unfold deref. rewrite Ho. simpl. by rewrite Hs.
Qed.

Lemma initialize_twice_witness :
  initialize net_config 3 0 net_registered = Ok net_initialized ∧
  get_state 0 net_initialized = Ok initialized ∧
  initialize net_config 3 0 net_initialized = Ok net_initialized.
Proof.
  assert (H : initialize net_config 3 0 net_registered = Ok net_initialized)
    by (by vm_compute).
  split; [exact H|].
  exact (initialize_twice net_config 3 2 0 net_registered net_initialized H).
Defined.

(** ** Registration *)

(** C7: a second [register_plugin] for a class returns the very object the
    first call returned and leaves the whole application as it was: nothing is
    constructed and no state changes. *)
Theorem register_plugin_twice classes fuel fuel' P a p a' :
  register_plugin classes fuel P a = Ok (p, a') →
  register_plugin classes (S fuel') P a' = Ok (p, a').
Proof.
  intros [_ HP]%register_plugin_grows. simpl. unfold find_plugin. by rewrite HP.
Qed.

Lemma register_plugin_twice_witness :
  register_plugin net_config 3 "Net" (application_new 0) = Ok (0, net_registered) ∧
  register_plugin net_config 3 "Net" net_registered = Ok (0, net_registered).
Proof.
  assert (H : register_plugin net_config 3 "Net" (application_new 0)
              = Ok (0, net_registered)) by (by vm_compute).
  split; [exact H|].
  exact (register_plugin_twice net_config 3 2 "Net" (application_new 0) 0
           net_registered H).
Defined.

(** ** Declaration-keyed registries *)

Lemma registry_ok_insert (reg : gmap string nat) (alive : gset nat) k :
  registry_ok reg alive → reg !! k = None →
  registry_ok (<[k := fresh alive]> reg) ({[fresh alive]} ∪ alive).
Proof.
  intros [Hin Hinj] Hk. split.
  - intros k' m. rewrite lookup_insert. case_decide.
    + intros [= <-]. set_solver.
    + intros Hm%Hin. set_solver.
  - intros k1 k2 m. rewrite !lookup_insert.
    repeat case_decide; subst; try done.
    + intros [= <-] Hm%Hin. by apply is_fresh in Hm.
    + intros Hm%Hin [= <-]. by apply is_fresh in Hm.
    + apply Hinj.
Qed.

Lemma get_method_found a D m :
  methods a !! decl_id D = Some m → get_method D a = (m, a).
Proof. intros H. unfold get_method. by rewrite H. Qed.

Lemma get_method_post a D m a' :
  registry_ok (methods a) (dom (method_store a)) →
  get_method D a = (m, a') →
  registry_ok (methods a') (dom (method_store a')) ∧
  methods a' !! decl_id D = Some m ∧
  methods a ⊆ methods a'.
Proof.
  intros Hok. unfold get_method.
  destruct (methods a !! decl_id D) as [itr|] eqn:HD; intros [= <- <-]; simpl.
  - done.
  - split; [|split].
    + rewrite dom_insert_L. by apply registry_ok_insert.
    + by rewrite lookup_insert_eq.
    + by apply insert_subseteq.
Qed.

Lemma get_method_spec a D D' :
  registry_ok (methods a) (dom (method_store a)) →
  get_method D (get_method D a).2 = get_method D a ∧
  registry_ok (methods (get_method D a).2) (dom (method_store (get_method D a).2)) ∧
  (decl_id D ≠ decl_id D' →
   (get_method D' (get_method D a).2).1 ≠ (get_method D a).1 ∧
   (get_method D (get_method D' (get_method D a).2).2).1 = (get_method D a).1).
Proof.
  intros Hok. destruct (get_method D a) as [m a1] eqn:E1; simpl.
  destruct (get_method_post _ _ _ _ Hok E1) as (Hok1 & Hm & _).
  split; [by apply get_method_found|]. split; [done|]. intros Hne.
  destruct (get_method D' a1) as [m' a2] eqn:E2; simpl.
  destruct (get_method_post _ _ _ _ Hok1 E2) as (Hok2 & Hm' & Hsub).
  pose proof (lookup_weaken _ _ _ _ Hm Hsub) as Hm2. split.
  - intros ->. apply Hne. by apply (proj2 Hok2 _ _ m).
  - by rewrite (get_method_found _ _ _ Hm2).
Qed.

Lemma get_channel_found a D c :
  channels a !! decl_id D = Some c → get_channel D a = (c, a).
Proof. intros H. unfold get_channel. by rewrite H. Qed.

Lemma get_channel_post a D c a' :
  registry_ok (channels a) (dom (channel_store a)) →
  get_channel D a = (c, a') →
  registry_ok (channels a') (dom (channel_store a')) ∧
  channels a' !! decl_id D = Some c ∧
  channels a ⊆ channels a'.
Proof.
  intros Hok. unfold get_channel.
  destruct (channels a !! decl_id D) as [itr|] eqn:HD; intros [= <- <-]; simpl.
  - done.
  - split; [|split].
    + rewrite dom_insert_L. by apply registry_ok_insert.
    + by rewrite lookup_insert_eq.
    + by apply insert_subseteq.
Qed.

Lemma get_channel_spec a D D' :
  registry_ok (channels a) (dom (channel_store a)) →
  get_channel D (get_channel D a).2 = get_channel D a ∧
  registry_ok (channels (get_channel D a).2) (dom (channel_store (get_channel D a).2)) ∧
  (decl_id D ≠ decl_id D' →
   (get_channel D' (get_channel D a).2).1 ≠ (get_channel D a).1 ∧
   (get_channel D (get_channel D' (get_channel D a).2).2).1 = (get_channel D a).1).
Proof.
  intros Hok. destruct (get_channel D a) as [c a1] eqn:E1; simpl.
  destruct (get_channel_post _ _ _ _ Hok E1) as (Hok1 & Hc & _).
  split; [by apply get_channel_found|]. split; [done|]. intros Hne.
  destruct (get_channel D' a1) as [c' a2] eqn:E2; simpl.
  destruct (get_channel_post _ _ _ _ Hok1 E2) as (Hok2 & Hc' & Hsub).
  pose proof (lookup_weaken _ _ _ _ Hc Hsub) as Hc2. split.
  - intros ->. apply Hne. by apply (proj2 Hok2 _ _ c).
  - by rewrite (get_channel_found _ _ _ Hc2).
Qed.

Lemma registry_ok_empty (alive : gset nat) : registry_ok ∅ alive.
Proof. split; intros *; by rewrite lookup_empty. Qed.

(** The first call with a token constructs: the token is stored with the
    address returned, the address is that of a live object, and when the
    token was not in the registry the object did not exist before and is the
    only thing added.  A call with a token that is in the registry returns
    the stored address and leaves the application as it is. *)
Lemma get_method_constructs a D :
  registry_ok (methods a) (dom (method_store a)) →
  methods (get_method D a).2 !! decl_id D = Some (get_method D a).1 ∧
  is_Some (method_store (get_method D a).2 !! (get_method D a).1) ∧
  (methods a !! decl_id D = None →
     method_store a !! (get_method D a).1 = None ∧
     method_store (get_method D a).2
     = <[(get_method D a).1 := decl_type D]> (method_store a) ∧
     methods (get_method D a).2
     = <[decl_id D := (get_method D a).1]> (methods a)) ∧
  (∀ m, methods a !! decl_id D = Some m → get_method D a = (m, a)).
Proof.
  intros [Hin _]. unfold get_method.
  destruct (methods a !! decl_id D) as [itr|] eqn:HD; simpl.
  - split; [done|]. split; [by apply elem_of_dom, (Hin _ _ HD)|].
    split; [done|]. by intros m [= <-].
  - split; [by rewrite lookup_insert_eq|].
    split; [rewrite lookup_insert_eq; eauto|]. split; [|done].
    intros _. split; [|done]. apply not_elem_of_dom, is_fresh.
Qed.

Lemma get_channel_constructs a D :
  registry_ok (channels a) (dom (channel_store a)) →
  channels (get_channel D a).2 !! decl_id D = Some (get_channel D a).1 ∧
  is_Some (channel_store (get_channel D a).2 !! (get_channel D a).1) ∧
  (channels a !! decl_id D = None →
     channel_store a !! (get_channel D a).1 = None ∧
     channel_store (get_channel D a).2
     = <[(get_channel D a).1 := Channel (decl_type D) (io_serv a)]>
         (channel_store a) ∧
     channels (get_channel D a).2
     = <[decl_id D := (get_channel D a).1]> (channels a)) ∧
  (∀ c, channels a !! decl_id D = Some c → get_channel D a = (c, a)).
Proof.
  intros [Hin _]. unfold get_channel.
  destruct (channels a !! decl_id D) as [itr|] eqn:HD; simpl.
  - split; [done|]. split; [by apply elem_of_dom, (Hin _ _ HD)|].
    split; [done|]. by intros c [= <-].
  - split; [by rewrite lookup_insert_eq|].
    split; [rewrite lookup_insert_eq; eauto|]. split; [|done].
    intros _. split; [|done]. apply not_elem_of_dom, is_fresh.
Qed.

(** C8: [get_method] (and likewise [get_channel]) constructs the object of a
    declaration token on the first call only and returns that object on
    every call.  After a call the registry holds the token with the address
    returned, and the address is that of a live object.  When the token was
    not in the registry, the object did not exist before: the call adds this
    one object, of the declared payload type (a channel with the io_service
    of the application), and this one registry entry.  When the token was in
    the registry, the call returns the stored address and changes nothing;
    so a second call returns the same object and constructs nothing.  With a
    different token the call returns a different object, whatever the
    payload type, and the object of the first token stays the one it was. *)
Theorem declaration_registry a D D' :
  registry_ok (methods a) (dom (method_store a)) →
  registry_ok (channels a) (dom (channel_store a)) →
  (get_method D (get_method D a).2 = get_method D a ∧
   registry_ok (methods (get_method D a).2) (dom (method_store (get_method D a).2)) ∧
   (decl_id D ≠ decl_id D' →
    (get_method D' (get_method D a).2).1 ≠ (get_method D a).1 ∧
    (get_method D (get_method D' (get_method D a).2).2).1 = (get_method D a).1)) ∧
  (get_channel D (get_channel D a).2 = get_channel D a ∧
   registry_ok (channels (get_channel D a).2) (dom (channel_store (get_channel D a).2)) ∧
   (decl_id D ≠ decl_id D' →
    (get_channel D' (get_channel D a).2).1 ≠ (get_channel D a).1 ∧
    (get_channel D (get_channel D' (get_channel D a).2).2).1 = (get_channel D a).1)) ∧
  (methods (get_method D a).2 !! decl_id D = Some (get_method D a).1 ∧
   is_Some (method_store (get_method D a).2 !! (get_method D a).1) ∧
   (methods a !! decl_id D = None →
      method_store a !! (get_method D a).1 = None ∧
      method_store (get_method D a).2
      = <[(get_method D a).1 := decl_type D]> (method_store a) ∧
      methods (get_method D a).2
      = <[decl_id D := (get_method D a).1]> (methods a)) ∧
   (∀ m, methods a !! decl_id D = Some m → get_method D a = (m, a))) ∧
  (channels (get_channel D a).2 !! decl_id D = Some (get_channel D a).1 ∧
   is_Some (channel_store (get_channel D a).2 !! (get_channel D a).1) ∧
   (channels a !! decl_id D = None →
      channel_store a !! (get_channel D a).1 = None ∧
      channel_store (get_channel D a).2
      = <[(get_channel D a).1 := Channel (decl_type D) (io_serv a)]>
          (channel_store a) ∧
      channels (get_channel D a).2
      = <[decl_id D := (get_channel D a).1]> (channels a)) ∧
   (∀ c, channels a !! decl_id D = Some c → get_channel D a = (c, a))).
Proof.
  intros Hm Hc.
  split; [by apply get_method_spec|]. split; [by apply get_channel_spec|].
  split; [by apply get_method_constructs | by apply get_channel_constructs].
Qed.

Lemma declaration_registry_witness :
  (get_method (Decl "ping" "int") (get_method (Decl "pong" "int") (application_new 0)).2).1
  ≠ (get_method (Decl "pong" "int") (application_new 0)).1 ∧
  (get_channel (Decl "ping" "int") (get_channel (Decl "pong" "int") (application_new 0)).2).1
  ≠ (get_channel (Decl "pong" "int") (application_new 0)).1 ∧
  methods (get_method (Decl "pong" "int") (application_new 0)).2 !! "pong"%string
  = Some (get_method (Decl "pong" "int") (application_new 0)).1 ∧
  method_store (get_method (Decl "pong" "int") (application_new 0)).2
  = <[(get_method (Decl "pong" "int") (application_new 0)).1 := "int"%string]> ∅ ∧
  channel_store (get_channel (Decl "pong" "int") (application_new 0)).2
  = <[(get_channel (Decl "pong" "int") (application_new 0)).1 := Channel "int" 0]> ∅.
Proof.
  destruct (declaration_registry (application_new 0) (Decl "pong" "int")
              (Decl "ping" "int") (registry_ok_empty _) (registry_ok_empty _))
    as ((_ & _ & Hm) & (_ & _ & Hc) & (Hkey & _ & Hfirst & _) & (_ & _ & Hcfirst & _)).
  split; [apply Hm; by vm_compute|]. split; [apply Hc; by vm_compute|].
  split; [exact Hkey|].
  split; [apply Hfirst; by vm_compute | apply Hcfirst; by vm_compute].
Defined.

(** ** Shutdown *)

Lemma shutdown_hooks_app tr1 tr2 :
  shutdown_hooks (tr1 ++ tr2) = shutdown_hooks tr1 ++ shutdown_hooks tr2.
Proof. apply omap_app. Qed.

Lemma shutdown_started this a :
  get_state this a = Ok started →
  shutdown this a = Ok (log (PluginShutdown this) (set_state this stopped a)).
Proof.
  intros (n & Ho)%get_state_Some. unfold shutdown, deref. by rewrite Ho.
Qed.

Lemma get_state_set_state_ne this s q a :
  q ≠ this → get_state q (set_state this s a) = get_state q a.
Proof.
  intros Hne. unfold get_state, deref. simpl. by rewrite lookup_alter_ne.
Qed.

Lemma get_state_set_state_eq this s s0 a :
  get_state this a = Ok s0 → get_state this (set_state this s a) = Ok s.
Proof.
  intros (n & Ho)%get_state_Some. unfold get_state, deref. simpl.
  rewrite lookup_alter_eq, Ho. done.
Qed.

Lemma shutdown_each_started l : ∀ a,
  NoDup l → Forall (λ p, get_state p a = Ok started) l →
  ∃ a', shutdown_each l a = Ok a' ∧
        shutdown_hooks (trace a') = shutdown_hooks (trace a) ++ l ∧
        Forall (λ p, get_state p a' = Ok stopped) l ∧
        (∀ q, q ∉ l → get_state q a' = get_state q a) ∧
        running_plugins a' = running_plugins a.
Proof.
  induction l as [|p l IH]; intros a Hnd Hall.
  - exists a. simpl. rewrite app_nil_r. repeat split; done.
  - apply NoDup_cons in Hnd as [Hp Hnd]. apply Forall_cons in Hall as [Hs Hall].
    simpl. rewrite (shutdown_started _ _ Hs). simpl.
    set (a1 := log (PluginShutdown p) (set_state p stopped a)).
    assert (Hne : ∀ q, q ≠ p → get_state q a1 = get_state q a).
    { intros q Hq. by apply get_state_set_state_ne. }
    destruct (IH a1 Hnd) as (a' & Hrun & Hhooks & Hstopped & Hother & Hrp).
    { rewrite Forall_forall in Hall |- *. intros q Hq.
      rewrite Hne; [by apply Hall|]. by intros ->. }
    exists a'. split; [done|]. split; [|split; [|split]].
    + rewrite Hhooks. unfold a1. simpl.
      rewrite !shutdown_hooks_app. simpl. by rewrite app_nil_r, <- app_assoc.
    + apply Forall_cons. split; [|done].
      rewrite Hother by done. unfold a1.
      change (get_state p (set_state p stopped a) = Ok stopped).
      by eapply get_state_set_state_eq.
    + intros q [Hq Hql]%not_elem_of_cons. rewrite Hother by done. by apply Hne.
    + by rewrite Hrp.
Qed.

(** C2: when the plugins of [running_plugins] are the started ones, each
    logged once, [shutdown_all] runs their [plugin_shutdown] hooks in exactly
    the reverse of [running_plugins], and stops every one of them. *)
Theorem shutdown_all_reverse_order a :
  NoDup (running_plugins a) →
  Forall (λ p, get_state p a = Ok started) (running_plugins a) →
  ∃ a', shutdown_all a = Ok a' ∧
        shutdown_hooks (trace a') =
          shutdown_hooks (trace a) ++ reverse (running_plugins a) ∧
        Forall (λ p, get_state p a' = Ok stopped) (running_plugins a).
Proof.
  intros Hnd Hall.
  destruct (shutdown_each_started (reverse (running_plugins a)) a)
    as (a' & Hrun & Hhooks & Hstopped & _).
  - by rewrite reverse_Permutation.
  - by apply Forall_reverse.
  - exists a'. split; [done|]. split; [done|]. by apply Forall_reverse.
Qed.

Lemma shutdown_all_reverse_order_witness :
  running_plugins net_started = [1; 0] ∧
  ∃ a', shutdown_all net_started = Ok a' ∧
        shutdown_hooks (trace a') = shutdown_hooks (trace net_started) ++ [0; 1] ∧
        Forall (λ p, get_state p a' = Ok stopped) [1; 0].
Proof.
  split; [by vm_compute|].
  apply (shutdown_all_reverse_order net_started).
  - apply (bool_decide_unpack _). by vm_compute.
  - apply (bool_decide_unpack _). by vm_compute.
Defined.

(** ** Order of effects of a transition *)

#[global] Instance keeps_preorder s : PreOrder (keeps s).
Proof. split; [by intros a p | intros a b c Hab Hbc p Hp; eauto]. Qed.

Section Effects.
Variable classes : gmap string (list string).

Lemma register_plugin_keeps s fuel : ∀ P a p a',
  register_plugin classes fuel P a = Ok (p, a') → keeps s a a'.
Proof.
  induction fuel as [|fuel IH]; simpl; intros P a p a' H; [discriminate|].
  destruct (find_plugin P a) as [existing|].
  - injection H as <- <-. reflexivity.
  - apply bind_Ok in H as (a1 & H1 & H). injection H as <- <-.
    apply (plugin_requires_preorder (keeps s)) in H1.
    + etrans; [|exact H1]. intros q (n & Hq)%get_state_Some.
      apply get_state_Some. exists n. simpl.
      rewrite lookup_insert_ne; [done|]. intros <-.
      apply (is_fresh (dom (plugin_store a))). apply elem_of_dom. eauto.
    + intros elem b q b' Hb. by eapply IH.
    + intros q b b' Hb. injection Hb as <-. reflexivity.
Qed.

Lemma advance_keeps ph s fuel : s ≠ phase_from ph → ∀ this a a',
  advance classes ph fuel this a = Ok a' → keeps s a a'.
Proof.
  intros Hs.
  induction fuel as [|fuel IH]; simpl; intros this a a' H; [discriminate|].
  apply bind_Ok in H as (o & Ho & H). apply bind_Ok in H as (a1 & H1 & H).
  apply bind_Ok in H as (s' & _ & H). case_decide; [|discriminate].
  injection H as <-.
  case_decide as Hfrom; [|by injection H1 as <-].
  apply bind_Ok in H1 as (a2 & H2 & H1). injection H1 as <-.
  apply (plugin_requires_preorder (keeps s)) in H2.
  - intros q Hq.
    assert (get_state q a2 = Ok s) as (n & Hq2)%get_state_Some.
    { apply H2. rewrite get_state_set_state_ne; [done|]. intros ->.
      unfold get_state in Hq. rewrite Ho in Hq. simpl in Hq. congruence. }
    apply get_state_Some. exists n. by destruct ph.
  - intros elem b q b' Hb. by eapply register_plugin_keeps.
  - intros q b b' Hb. by eapply IH.
Qed.

(** After the traversal with the visitor [advance], every listed dependency
    is registered and in the target state. *)
Lemma plugin_requires_advance_all ph fuel : ∀ PLUGINS a a',
  plugin_requires (register_plugin classes fuel) (advance classes ph fuel)
    PLUGINS a = Ok a' →
  ∀ d, d ∈ PLUGINS →
    ∃ pd, find_plugin d a' = Some pd ∧ get_state pd a' = Ok (phase_to ph).
Proof.
  assert (Hne : phase_to ph ≠ phase_from ph) by (by destruct ph).
  induction PLUGINS as [|elem rest IH]; simpl; intros a a' H d Hd.
  - by apply elem_of_nil in Hd.
  - apply bind_Ok in H as ([p a1] & H1 & H). apply bind_Ok in H as (a2 & H2 & H).
    apply elem_of_cons in Hd as [->|Hd]; [|by eapply IH].
    exists p. apply register_plugin_grows in H1 as [_ Hp].
    assert (grows a2 a' ∧ keeps (phase_to ph) a2 a') as [Hg Hk].
    { split.
      - eapply (plugin_requires_preorder grows); [| |exact H].
        + intros e b q b' Hb. by apply register_plugin_grows in Hb as [? _].
        + intros q b b' Hb. by eapply advance_grows.
      - eapply (plugin_requires_preorder (keeps (phase_to ph))); [| |exact H].
        + intros e b q b' Hb. by eapply register_plugin_keeps.
        + intros q b b' Hb. by eapply advance_keeps. }
    split.
    + unfold find_plugin. eapply lookup_weaken; [|apply (grows_plugins _ _ Hg)].
      eapply lookup_weaken; [exact Hp|].
      apply (grows_plugins a1 a2). by eapply advance_grows.
    + apply Hk. destruct fuel as [|fuel']; simpl in H2; [discriminate|].
      apply bind_Ok in H2 as (o & _ & H2). apply bind_Ok in H2 as (a3 & _ & H2).
      apply bind_Ok in H2 as (s & Hs & H2). case_decide; [|discriminate].
      injection H2 as <-. by subst s.
Qed.

End Effects.

(** C3, as stated, fails: on [Net], which requires [Config], the code sets
    the state of [Net] (object 0) before it visits [Config] (object 1) and
    before it runs the hook of [Net]; the order of the claim, hook before
    state change, is not the order of the code. *)
Lemma initialize_not_as_specified :
  get_state 0 net_registered = Ok registered ∧
  ∃ a1 a2,
    initialize net_config 3 0 net_registered = Ok a1 ∧
    initialize_as_specified net_config 3 0 net_registered = Ok a2 ∧
    trace a1 = trace net_registered ++
      [SetState 0 initialized; SetState 1 initialized; PluginInitialize 1;
       PluginInitialized 1; PluginInitialize 0; PluginInitialized 0] ∧
    trace a2 = trace net_registered ++
      [PluginInitialize 1; SetState 1 initialized; PluginInitialized 1;
       PluginInitialize 0; SetState 0 initialized; PluginInitialized 0] ∧
    a1 ≠ a2.
Proof.
  split; [by vm_compute|].
  eexists _, _. split; [by vm_compute|]. split; [by vm_compute|].
  split; [by vm_compute|]. split; [by vm_compute|].
  intros Heq. apply (f_equal trace) in Heq. vm_compute in Heq. discriminate.
Qed.

(** C3, amended: on a plugin in state [registered], [initialize] first sets
    the state to [initialized], then initializes every declared dependency
    (each is registered and [initialized] when the traversal is over), then
    runs the plugin's own hook, then notifies the application, which appends
    the plugin to [initialized_plugins]. *)
Theorem initialize_effect_order classes fuel this a a' n :
  plugin_store a !! this = Some (Plugin registered n) →
  initialize classes (S fuel) this a = Ok a' →
  ∃ a_deps tr_deps,
    plugin_requires (register_plugin classes fuel) (initialize classes fuel)
      (requires_of classes n) (set_state this initialized a) = Ok a_deps ∧
    trace a_deps = trace a ++ SetState this initialized :: tr_deps ∧
    (∀ d, d ∈ requires_of classes n →
       ∃ pd, find_plugin d a_deps = Some pd ∧ get_state pd a_deps = Ok initialized) ∧
    trace a' = trace a ++ SetState this initialized :: tr_deps ++
                 [PluginInitialize this; PluginInitialized this] ∧
    initialized_plugins a' = initialized_plugins a_deps ++ [this] ∧
    get_state this a' = Ok initialized.
Proof.
  intros Ho H. simpl in H. unfold deref in H. rewrite Ho in H. simpl in H.
  apply bind_Ok in H as (a1 & H1 & H). apply bind_Ok in H as (s & Hs & H).
  case_decide; [|discriminate]. injection H as <-. subst s.
  apply bind_Ok in H1 as (a_deps & Hdeps & H1). injection H1 as <-.
  pose proof Hdeps as Hadv. rewrite initialize_advance in Hadv.
  assert (grows (set_state this initialized a) a_deps) as Hg.
  { eapply (plugin_requires_preorder grows); [| |exact Hadv].
    - intros e b q b' Hb. by apply register_plugin_grows in Hb as [? _].
    - intros q b b' Hb. by eapply advance_grows. }
  destruct (grows_trace _ _ Hg) as [tr_deps Htr]. simpl in Htr.
  exists a_deps, tr_deps. split; [done|]. split.
  { rewrite Htr. by rewrite <- app_assoc. }
  split.
  { intros d Hd. by eapply (plugin_requires_advance_all classes Init). }
  split.
  { simpl. rewrite Htr. by rewrite <- !app_assoc. }
  split; done.
Qed.

Lemma initialize_effect_order_witness :
  ∃ a_deps,
    trace a_deps = trace net_registered ++
      SetState 0 initialized ::
        [SetState 1 initialized; PluginInitialize 1; PluginInitialized 1] ∧
    trace net_initialized = trace net_registered ++
      SetState 0 initialized ::
        [SetState 1 initialized; PluginInitialize 1; PluginInitialized 1] ++
        [PluginInitialize 0; PluginInitialized 0] ∧
    initialized_plugins net_initialized = initialized_plugins a_deps ++ [0].
Proof.
  destruct (initialize_effect_order net_config 2 0 net_registered net_initialized "Net")
    as (a_deps & tr_deps & Hdeps & Htr & _ & Htr' & Hord & _);
    [by vm_compute | by vm_compute |].
  exists a_deps.
  assert (tr_deps = [SetState 1 initialized; PluginInitialize 1; PluginInitialized 1])
    as ->.
  { vm_compute in Hdeps. injection Hdeps as <-. vm_compute in Htr.
    by injection Htr as <-. }
  done.
Defined.

(** ** Termination of the dependency traversal, cycles included *)

Lemma state_of_class_Some a n s :
  state_of_class a n = Some s ↔
  ∃ p, plugins a !! n = Some p ∧ get_state p a = Ok s.
Proof.
  unfold state_of_class. split.
  - destruct (plugins a !! n) as [p|] eqn:Hp; simpl; [|done].
    destruct (plugin_store a !! p) as [o|] eqn:Ho; simpl; [|done].
    intros [= <-]. exists p. split; [done|]. apply get_state_Some.
    exists (_name o). by destruct o.
  - intros (p & -> & (m & Ho)%get_state_Some). simpl. by rewrite Ho.
Qed.

Section Termination.
Variable classes : gmap string (list string).

Lemma unregistered_mono a a' :
  plugins a ⊆ plugins a' → unregistered classes a' ⊆ unregistered classes a.
Proof.
  intros Hsub n. unfold unregistered. rewrite !elem_of_filter.
  intros [Hn Hd]. split; [|done].
  destruct (plugins a !! n) as [p|] eqn:Hp; [|done].
  by rewrite (lookup_weaken _ _ _ _ Hp Hsub) in Hn.
Qed.

Lemma pending_mono ph a a' :
  plugins a ⊆ plugins a' → (∀ s, s ≠ phase_from ph → keeps s a a') →
  pending classes ph a' ⊆ pending classes ph a.
Proof.
  intros Hsub Hk n. unfold pending. rewrite !elem_of_filter.
  intros [Hw Hd]. split; [|done].
  intros s (p & Hp & Hs)%state_of_class_Some.
  destruct (decide (s = phase_from ph)) as [|Hne]; [done|].
  apply Hw. apply state_of_class_Some. exists p.
  split; [by eapply lookup_weaken | by apply Hk].
Qed.

Lemma depth_bound_mono ph a a' :
  plugins a ⊆ plugins a' → (∀ s, s ≠ phase_from ph → keeps s a a') →
  depth_bound classes ph a' ≤ depth_bound classes ph a.
Proof.
  intros Hsub Hk. unfold depth_bound.
  pose proof (subseteq_size _ _ (unregistered_mono _ _ Hsub)).
  pose proof (subseteq_size _ _ (pending_mono ph _ _ Hsub Hk)). lia.
Qed.

Lemma depth_bound_le ph a : depth_bound classes ph a ≤ 2 * size classes.
Proof.
  unfold depth_bound, unregistered, pending.
  pose proof (subseteq_size (filter (λ n, plugins a !! n = None) (dom classes))
                (dom classes)) as H1.
  pose proof (subseteq_size (filter (waiting ph a) (dom classes))
                (dom classes)) as H2.
  rewrite size_dom in H1, H2.
  assert (∀ (P : string → Prop) `{!∀ n, Decision (P n)},
            filter P (dom classes) ⊆ dom classes) as Hf.
  { intros P ? n. rewrite elem_of_filter. tauto. }
  specialize (H1 (Hf _ _)). specialize (H2 (Hf _ _)). lia.
Qed.

End Termination.

Lemma store_registered_set_state this s a :
  store_registered a → store_registered (set_state this s a).
Proof.
  intros Hwf p o. simpl. rewrite lookup_alter. case_decide as Hd.
  - subst p. destruct (plugin_store a !! this) as [o0|] eqn:Ho; simpl; [|done].
    intros [= <-]. simpl. by apply (Hwf this o0).
  - apply Hwf.
Qed.

Lemma store_registered_notify ph this e a :
  store_registered a → store_registered (phase_notify ph this (log e a)).
Proof. intros Hwf. by destruct ph. Qed.

Lemma store_registered_new P a :
  store_registered a → plugins a !! P = None →
  store_registered (set_plugins <[P := fresh (dom (plugin_store a))]>
                      (new_plugin (fresh (dom (plugin_store a))) P a)).
Proof.
  intros Hwf HP p o. simpl. rewrite lookup_insert. case_decide as Hd.
  - intros [= <-]. simpl. subst p. by rewrite lookup_insert_eq.
  - intros Ho. pose proof (Hwf p o Ho) as Hn. simpl in Hn.
    rewrite lookup_insert_ne; [done|]. intros HPn. congruence.
Qed.

Section Returns.
Variable classes : gmap string (list string).

Lemma unregistered_insert P p (a : application) ds :
  classes !! P = Some ds → plugins a !! P = None →
  size (unregistered classes (set_plugins <[P := p]> (new_plugin p P a)))
  < size (unregistered classes a).
Proof.
  intros HP Hn. apply subset_size. split.
  - apply unregistered_mono. simpl. by apply insert_subseteq.
  - intros Hsub. specialize (Hsub P). unfold unregistered in Hsub.
    rewrite !elem_of_filter in Hsub. simpl in Hsub.
    rewrite lookup_insert_eq in Hsub.
    destruct Hsub as [? _]; [|done]. split; [done|]. apply elem_of_dom. eauto.
Qed.

Lemma register_plugin_total fuel : ∀ P a,
  store_registered a → size (unregistered classes a) < fuel →
  ∃ p a', register_plugin classes fuel P a = Ok (p, a') ∧ store_registered a'.
Proof.
  induction fuel as [|fuel IH]; intros P a Hwf Hsz; [lia|]. simpl.
  unfold find_plugin. destruct (plugins a !! P) as [existing|] eqn:HP; [eauto|].
  set (plug := fresh (dom (plugin_store a))).
  set (a1 := set_plugins <[P := plug]> (new_plugin plug P a)).
  assert (Hwf1 : store_registered a1) by (by apply store_registered_new).
  unfold requires_of. destruct (classes !! P) as [ds|] eqn:Hcl; simpl; [|eauto].
  assert (Hsz1 : size (unregistered classes a1) < fuel).
  { pose proof (unregistered_insert P plug a ds Hcl HP). unfold a1. lia. }
  destruct (plugin_requires_total
              (λ b, store_registered b ∧ size (unregistered classes b) < fuel)
              (register_plugin classes fuel) (λ _ a, Ok a) ds) with (a := a1)
    as (a' & -> & Hwf' & _); [|done|simpl; eauto].
  intros elem b _ [Hb Hszb].
  destruct (IH elem b Hb Hszb) as (p & b' & Hreg & Hb').
  exists p, b'. split; [done|]. exists b'. split; [done|]. split; [done|].
  apply register_plugin_grows in Hreg as [Hg _].
  pose proof (subseteq_size _ _ (unregistered_mono classes _ _ (grows_plugins _ _ Hg))).
  lia.
Qed.

Lemma keeps_set_state this s0 s a :
  get_state this a = Ok s0 → s ≠ s0 → ∀ t, keeps s a (set_state this t a).
Proof.
  intros H0 Hne t q Hq. rewrite get_state_set_state_ne; [done|].
  intros ->. congruence.
Qed.

Lemma pending_set_state ph this o a ds :
  store_registered a → plugin_store a !! this = Some o →
  _state o = phase_from ph → classes !! _name o = Some ds →
  depth_bound classes ph (set_state this (phase_to ph) a)
  < depth_bound classes ph a.
Proof.
  intros Hwf Ho Hfrom Hcl.
  assert (Hs : get_state this a = Ok (phase_from ph)).
  { apply get_state_Some. exists (_name o). rewrite Ho. by destruct o; simplify_eq/=. }
  assert (Hk : ∀ s, s ≠ phase_from ph → keeps s a (set_state this (phase_to ph) a)).
  { intros s Hne. by eapply keeps_set_state. }
  unfold depth_bound.
  pose proof (subseteq_size _ _
    (unregistered_mono classes a (set_state this (phase_to ph) a) (reflexivity _))).
  enough (size (pending classes ph (set_state this (phase_to ph) a))
          < size (pending classes ph a)) by lia.
  apply subset_size. split; [by apply pending_mono|].
  intros Hsub. specialize (Hsub (_name o)). unfold pending in Hsub.
  rewrite !elem_of_filter in Hsub. destruct Hsub as [Hw _].
  - split; [|apply elem_of_dom; eauto].
    intros s (p & Hp & Hps)%state_of_class_Some.
    rewrite (Hwf this o Ho) in Hp. injection Hp as <-. congruence.
  - assert (phase_to ph = phase_from ph) as Habs; [|by destruct ph].
    apply Hw. apply state_of_class_Some. exists this. split.
    + exact (Hwf this o Ho).
    + by eapply get_state_set_state_eq.
Qed.

Lemma advance_terminates ph fuel : ∀ this a,
  store_registered a → depth_bound classes ph a < fuel →
  advance classes ph fuel this a ≠ OutOfFuel ∧
  ∀ a', advance classes ph fuel this a = Ok a' → store_registered a'.
Proof.
  induction fuel as [|fuel IH]; intros this a Hwf Hsz; [lia|]. simpl.
  unfold deref. destruct (plugin_store a !! this) as [o|] eqn:Ho; simpl; [|done].
  assert (Hfin : ∀ b, store_registered b →
            (s ← get_state this b;
             if decide (s = phase_to ph) then Ok b else AssertFail b) ≠ OutOfFuel ∧
            ∀ a', (s ← get_state this b;
                   if decide (s = phase_to ph) then Ok b else AssertFail b) = Ok a' →
                  store_registered a').
  { intros b Hb. unfold get_state, deref.
    destruct (plugin_store b !! this) as [o'|]; simpl;
      try case_decide; (split; [done|]); intros a' [=]; by subst. }
  case_decide as Hfrom; [|by apply Hfin].
  set (a1 := set_state this (phase_to ph) a).
  assert (Hwf1 : store_registered a1) by (by apply store_registered_set_state).
  unfold requires_of. destruct (classes !! _name o) as [ds|] eqn:Hcl; simpl.
  2:{ apply Hfin. by apply store_registered_notify. }
  assert (Hsz1 : depth_bound classes ph a1 < fuel).
  { pose proof (pending_set_state ph this o a ds Hwf Ho Hfrom Hcl). unfold a1. lia. }
  destruct (plugin_requires_terminates
              (λ b, store_registered b ∧ depth_bound classes ph b < fuel)
              (register_plugin classes fuel) (advance classes ph fuel) ds)
    with (a := a1) as [Hne Hok]; [|done|].
  - intros elem b _ [Hb Hszb].
    destruct (register_plugin_total fuel elem b Hb) as (p & b1 & Hreg & Hb1).
    { unfold depth_bound in Hszb. lia. }
    exists p, b1. split; [done|].
    assert (Hszb1 : depth_bound classes ph b1 < fuel).
    { pose proof (register_plugin_grows _ _ _ _ _ _ Hreg) as [Hg _].
      pose proof (depth_bound_mono classes ph b b1 (grows_plugins _ _ Hg)) as Hle.
      eapply Nat.le_lt_trans; [|exact Hszb]. apply Hle.
      intros s _. by eapply register_plugin_keeps. }
    destruct (IH p b1 Hb1 Hszb1) as [Hne Hok]. split; [done|].
    intros b2 Hadv. split; [by apply Hok|].
    pose proof (advance_grows _ _ _ _ _ _ Hadv) as Hg.
    pose proof (depth_bound_mono classes ph b1 b2 (grows_plugins _ _ Hg)) as Hle.
    eapply Nat.le_lt_trans; [|exact Hszb1]. apply Hle.
    intros s Hs. by eapply advance_keeps.
  - destruct (plugin_requires _ _ ds a1) as [a2|a2| |] eqn:Hdeps; simpl; try done.
    apply Hfin. apply store_registered_notify. by apply Hok.
Qed.

End Returns.

(** C4, as stated, fails: on the cycle where [A] requires [B] and [B]
    requires [A], registration, [initialize] and [startup] all return, at call
    depth 3, and report nothing. *)
Lemma cyclic_pair_returns :
  requires_of cyclic_pair "A" = ["B"%string] ∧
  requires_of cyclic_pair "B" = ["A"%string] ∧
  ∃ a1 a2 a3,
    register_plugin cyclic_pair 3 "A" (application_new 0) = Ok (0, a1) ∧
    initialize cyclic_pair 3 0 a1 = Ok a2 ∧
    startup cyclic_pair 3 0 a2 = Ok a3 ∧
    ¬ recurses_without_bound
        (λ fuel, register_plugin cyclic_pair fuel "A" (application_new 0)) ∧
    ¬ recurses_without_bound (λ fuel, initialize cyclic_pair fuel 0 a1) ∧
    ¬ recurses_without_bound (λ fuel, startup cyclic_pair fuel 0 a2).
Proof.
  split; [by vm_compute|]. split; [by vm_compute|].
  eexists _, _, _. split; [by vm_compute|]. split; [by vm_compute|].
  split; [by vm_compute|].
  split; [|split]; intros H; specialize (H 3); vm_compute in H; discriminate.
Qed.

(** C4, amended: a cyclic declaration is not detected, and the traversal
    terminates all the same.  For every table of classes, cyclic or not,
    [register_plugin] returns and [initialize] and [startup] come back,
    normally or through their assertion, within a call depth of twice the
    number of classes plus one: the registry entry is made before the
    dependencies are registered and the state is set before they are
    visited, so meeting a plugin again is a no-op. *)
Theorem traversal_terminates classes fuel P this a :
  store_registered a → 2 * size classes < fuel →
  (∃ p a', register_plugin classes fuel P a = Ok (p, a')) ∧
  initialize classes fuel this a ≠ OutOfFuel ∧
  startup classes fuel this a ≠ OutOfFuel.
Proof.
  intros Hwf Hfuel.
  pose proof (depth_bound_le classes Init a) as Hi.
  pose proof (depth_bound_le classes Start a) as Hs.
  split; [|split].
  - destruct (register_plugin_total classes fuel P a Hwf) as (p & a' & H & _);
      [unfold depth_bound in Hi; lia | eauto].
  - rewrite initialize_advance. apply advance_terminates; [done|lia].
  - rewrite startup_advance. apply advance_terminates; [done|lia].
Qed.

Lemma traversal_terminates_witness :
  (∃ p a', register_plugin cyclic_pair 5 "B" cyclic_registered = Ok (p, a')) ∧
  initialize cyclic_pair 5 0 cyclic_registered ≠ OutOfFuel ∧
  startup cyclic_pair 5 0 cyclic_registered ≠ OutOfFuel.
Proof.
  apply (traversal_terminates cyclic_pair 5 "B" 0 cyclic_registered).
  - apply (bool_decide_unpack _). by vm_compute.
  - vm_compute. lia.
Defined.

(** ** Dependencies come first (acyclic tables) *)

Lemma occurs_before_app x y l k :
  occurs_before x y l → occurs_before x y (l ++ k).
Proof.
  intros (i & j & Hi & Hj & Hij). exists i, j.
  split; [by apply lookup_app_l_Some|]. split; [by apply lookup_app_l_Some|done].
Qed.

Lemma occurs_before_snoc x y l :
  x ∈ l → occurs_before x y (l ++ [y]).
Proof.
  intros (i & Hi)%list_elem_of_lookup. exists i, (length l).
  split; [by apply lookup_app_l_Some|].
  split; [by rewrite list_lookup_middle|]. by apply lookup_lt_Some in Hi.
Qed.

Lemma occurs_before_elem x y l : occurs_before x y l → x ∈ l ∧ y ∈ l.
Proof.
  intros (i & j & Hi & Hj & _). split; apply list_elem_of_lookup; eauto.
Qed.

Lemma get_state_store p a s n :
  plugin_store a !! p = Some (Plugin s n) → get_state p a = Ok s.
Proof. intros H. apply get_state_Some. eauto. Qed.

Lemma phase_to_ne_from ph : phase_to ph ≠ phase_from ph.
Proof. by destruct ph. Qed.

Lemma phase_order_notify ph this e a :
  phase_order ph (phase_notify ph this (log e a)) = phase_order ph a ++ [this].
Proof. by destruct ph. Qed.

Lemma phase_other_notify ph this e a :
  phase_order (phase_other ph) (phase_notify ph this (log e a))
  = phase_order (phase_other ph) a.
Proof. by destruct ph. Qed.

Lemma plugin_store_notify ph this e a :
  plugin_store (phase_notify ph this (log e a)) = plugin_store a.
Proof. by destruct ph. Qed.

Lemma plugins_notify ph this e a :
  plugins (phase_notify ph this (log e a)) = plugins a.
Proof. by destruct ph. Qed.

Lemma get_state_notify ph this e a p :
  get_state p (phase_notify ph this (log e a)) = get_state p a.
Proof. by destruct ph. Qed.

Lemma phase_order_set_state ph this s a :
  phase_order ph (set_state this s a) = phase_order ph a.
Proof. by destruct ph. Qed.

Lemma store_set_state_eq this t s n a :
  plugin_store a !! this = Some (Plugin s n) →
  plugin_store (set_state this t a) !! this = Some (Plugin t n).
Proof. intros H. simpl. by rewrite lookup_alter_eq, H. Qed.

Lemma store_set_state_ne this t p a :
  p ≠ this → plugin_store (set_state this t a) !! p = plugin_store a !! p.
Proof. intros H. simpl. by rewrite lookup_alter_ne. Qed.

Lemma steps_refl ph a : steps ph a a.
Proof.
  split; try done.
  - intros p s n H. eauto.
  - intros p s n H. eauto.
  - exists []. split; [by rewrite app_nil_r|]. by intros p ?%elem_of_nil.
Qed.

Lemma steps_get_state_from ph a a' p :
  steps ph a a' → get_state p a' = Ok (phase_from ph) →
  get_state p a = Ok (phase_from ph).
Proof.
  intros Hst (n & Hp)%get_state_Some.
  destruct (steps_bwd _ _ _ Hst _ _ _ Hp) as (s & Hs).
  destruct (steps_fwd _ _ _ Hst _ _ _ Hs) as (s' & Hs' & Hor).
  rewrite Hp in Hs'. injection Hs' as <-.
  apply (get_state_store _ _ _ n). destruct Hor as [<-|[_ Habs]]; [done|].
  by apply eq_sym, phase_to_ne_from in Habs.
Qed.

Lemma steps_trans ph a b c : steps ph a b → steps ph b c → steps ph a c.
Proof.
  intros Hab Hbc. split.
  - by rewrite (steps_plugins _ _ _ Hbc), (steps_plugins _ _ _ Hab).
  - intros p s n Hp.
    destruct (steps_fwd _ _ _ Hab _ _ _ Hp) as (s1 & Hs1 & Hor1).
    destruct (steps_fwd _ _ _ Hbc _ _ _ Hs1) as (s2 & Hs2 & Hor2).
    exists s2. split; [done|].
    destruct Hor1 as [->|[-> ->]]; [done|].
    destruct Hor2 as [->|[_ ->]]; by right.
  - intros p s n Hp.
    destruct (steps_bwd _ _ _ Hbc _ _ _ Hp) as (s1 & Hs1).
    by apply (steps_bwd _ _ _ Hab _ _ _ Hs1).
  - destruct (steps_order _ _ _ Hab) as (l1 & Hl1 & Hf1).
    destruct (steps_order _ _ _ Hbc) as (l2 & Hl2 & Hf2).
    exists (l1 ++ l2). split; [by rewrite Hl2, Hl1, app_assoc|].
    intros p [Hp|Hp]%elem_of_app; [by apply Hf1|].
    eapply steps_get_state_from; [exact Hab|by apply Hf2].
  - by rewrite (steps_other _ _ _ Hbc), (steps_other _ _ _ Hab).
Qed.

Lemma store_set_state_inv this t a p s' n' :
  plugin_store (set_state this t a) !! p = Some (Plugin s' n') →
  (p = this ∧ s' = t ∧ ∃ s, plugin_store a !! this = Some (Plugin s n')) ∨
  (p ≠ this ∧ plugin_store a !! p = Some (Plugin s' n')).
Proof.
  simpl. rewrite lookup_alter. case_decide as Hd; [|by right].
  subst p. destruct (plugin_store a !! this) as [[s n]|]; simpl; [|done].
  intros [= <- <-]. left. eauto.
Qed.

Lemma store_set_state_fwd this t a p s n :
  plugin_store a !! p = Some (Plugin s n) →
  plugin_store (set_state this t a) !! p
  = Some (Plugin (if decide (this = p) then t else s) n).
Proof.
  intros H. simpl. rewrite lookup_alter. case_decide; [subst|done].
  by rewrite H.
Qed.

Lemma register_plugin_found classes fuel P a p :
  plugins a !! P = Some p → register_plugin classes (S fuel) P a = Ok (p, a).
Proof. intros H. simpl. unfold find_plugin. by rewrite H. Qed.

Section Invariant.
Variable classes : gmap string (list string).

Lemma Inv_set_state ph busy this n a :
  Inv classes ph busy a →
  plugin_store a !! this = Some (Plugin (phase_from ph) n) →
  Inv classes ph (busy ∪ {[this]}) (set_state this (phase_to ph) a).
Proof.
  intros HI Hthis.
  assert (Hst : get_state this a = Ok (phase_from ph)) by (by eapply get_state_store).
  split.
  - intros m p Hp. destruct (inv_plugins _ _ _ _ HI m p Hp) as (s & Hs).
    rewrite (store_set_state_fwd _ _ _ _ _ _ Hs). eauto.
  - intros p s m d Hp Hg Hd.
    assert (∃ s0, plugin_store a !! p = Some (Plugin s0 m) ∧ good ph s0)
      as (s0 & Hp0 & Hg0).
    { apply store_set_state_inv in Hp as [(-> & -> & s0 & Hs0)|[_ Hp]].
      - exists (phase_from ph). rewrite Hthis in Hs0. simplify_eq.
        split; [done|by left].
      - eauto. }
    destruct (inv_good _ _ _ _ HI p s0 m d Hp0 Hg0 Hd) as (pd & sd & Hpd & Hsd & Hgd).
    exists pd. eexists. split; [done|].
    rewrite (store_set_state_fwd _ _ _ _ _ _ Hsd). split; [done|].
    case_decide; [by right|done].
  - intros p Hp. destruct (decide (p = this)) as [->|Hne]; [set_solver|].
    rewrite get_state_set_state_ne in Hp by done.
    destruct (inv_done _ _ _ _ HI p Hp); [by left|set_solver].
  - intros p Hp. rewrite phase_order_set_state in Hp.
    pose proof (inv_order_state _ _ _ _ HI p Hp) as Hs.
    rewrite get_state_set_state_ne; [done|]. intros ->.
    rewrite Hst in Hs. injection Hs as Hs. by apply eq_sym, phase_to_ne_from in Hs.
  - rewrite phase_order_set_state. by apply (inv_nodup _ _ _ _ HI).
  - intros p s m d Hp Hs Hd. rewrite phase_order_set_state in Hp |- *.
    assert (∃ s0, plugin_store a !! p = Some (Plugin s0 m)) as (s0 & Hp0).
    { apply store_set_state_inv in Hs as [(-> & -> & s0 & Hs0)|[_ Hs]]; eauto. }
    by apply (inv_deps _ _ _ _ HI p s0 m d).
Qed.

Lemma steps_wrap ph this n e a a2 :
  plugin_store a !! this = Some (Plugin (phase_from ph) n) →
  steps ph (set_state this (phase_to ph) a) a2 →
  steps ph a (phase_notify ph this (log e a2)).
Proof.
  intros Hthis Hst. split.
  - rewrite plugins_notify. by rewrite (steps_plugins _ _ _ Hst).
  - intros p s m Hp. rewrite plugin_store_notify.
    pose proof (store_set_state_fwd this (phase_to ph) _ _ _ _ Hp) as Hp1.
    destruct (steps_fwd _ _ _ Hst _ _ _ Hp1) as (s' & Hs' & Hor).
    exists s'. split; [done|]. case_decide as Hd.
    + subst p. rewrite Hthis in Hp. injection Hp as <- <-. right. split; [done|].
      destruct Hor as [->|[_ ->]]; done.
    + done.
  - intros p s' m Hp. rewrite plugin_store_notify in Hp.
    destruct (steps_bwd _ _ _ Hst _ _ _ Hp) as (s & Hs).
    apply store_set_state_inv in Hs as [(-> & -> & s0 & Hs0)|[_ Hs]]; eauto.
  - destruct (steps_order _ _ _ Hst) as (l & Hl & Hf).
    exists (l ++ [this]). rewrite phase_order_notify, Hl, phase_order_set_state.
    split; [by rewrite app_assoc|].
    intros p [Hp|Hp]%elem_of_app; [|apply list_elem_of_singleton in Hp as ->].
    + specialize (Hf p Hp). destruct (decide (p = this)) as [->|Hne].
      * pose proof (get_state_store _ _ _ _ (store_set_state_eq this (phase_to ph) _ _ _ Hthis)) as Ht.
        rewrite Ht in Hf. injection Hf as Hf. by apply phase_to_ne_from in Hf.
      * by rewrite get_state_set_state_ne in Hf.
    + by eapply get_state_store.
  - rewrite phase_other_notify, (steps_other _ _ _ Hst). by destruct ph.
Qed.

Lemma Inv_notify ph busy this n e a2 :
  Inv classes ph (busy ∪ {[this]}) a2 →
  plugin_store a2 !! this = Some (Plugin (phase_to ph) n) →
  this ∉ phase_order ph a2 →
  (∀ d, d ∈ requires_of classes n →
     ∃ pd, plugins a2 !! d = Some pd ∧ pd ∈ phase_order ph a2) →
  Inv classes ph busy (phase_notify ph this (log e a2)).
Proof.
  intros HI Hthis Hnotin Hdeps. split.
  - intros m p. rewrite plugins_notify, plugin_store_notify.
    apply (inv_plugins _ _ _ _ HI).
  - intros p s m d. rewrite plugins_notify, plugin_store_notify.
    apply (inv_good _ _ _ _ HI).
  - intros p. rewrite get_state_notify, phase_order_notify. intros Hp.
    destruct (inv_done _ _ _ _ HI p Hp) as [Hin|Hin]; [left; set_solver|].
    apply elem_of_union in Hin as [Hin|Hin]; [by right|].
    apply elem_of_singleton in Hin as ->.
    left. set_solver.
  - intros p. rewrite get_state_notify, phase_order_notify.
    intros [Hp|Hp]%elem_of_app; [|apply list_elem_of_singleton in Hp as ->].
    + by apply (inv_order_state _ _ _ _ HI).
    + by eapply get_state_store.
  - rewrite phase_order_notify. apply NoDup_app. split; [|split].
    + by apply (inv_nodup _ _ _ _ HI).
    + intros p Hp Hq. apply list_elem_of_singleton in Hq as ->. done.
    + apply NoDup_singleton.
  - intros p s m d. rewrite plugins_notify, plugin_store_notify, phase_order_notify.
    intros [Hp|Hp]%elem_of_app Hs Hd; [|apply list_elem_of_singleton in Hp as ->].
    + destruct (inv_deps _ _ _ _ HI p s m d Hp Hs Hd) as (pd & Hpd & Hb).
      exists pd. split; [done|]. by apply occurs_before_app.
    + rewrite Hthis in Hs. injection Hs as <- <-.
      destruct (Hdeps d Hd) as (pd & Hpd & Hin).
      exists pd. split; [done|]. by apply occurs_before_snoc.
Qed.

(** After the traversal with the empty visitor, every listed class is
    registered. *)
Lemma plugin_requires_registers fuel : ∀ PLUGINS a a',
  plugin_requires (register_plugin classes fuel) (λ _ a, Ok a) PLUGINS a = Ok a' →
  ∀ d, d ∈ PLUGINS → is_Some (plugins a' !! d).
Proof.
  induction PLUGINS as [|elem rest IH]; simpl; intros a a' H d Hd.
  - by apply elem_of_nil in Hd.
  - apply bind_Ok in H as ([p a1] & H1 & H). simpl in H.
    apply elem_of_cons in Hd as [->|Hd]; [|by eapply IH].
    apply register_plugin_grows in H1 as [_ Hp]. exists p.
    eapply lookup_weaken; [exact Hp|].
    apply (grows_plugins a1 a').
    eapply (plugin_requires_preorder grows); [| |exact H].
    + intros e b q b' Hb. by apply register_plugin_grows in Hb as [? _].
    + intros q b b' [= <-]. reflexivity.
Qed.

Lemma RegInv_new busy P a :
  RegInv classes busy a → plugins a !! P = None →
  RegInv classes (busy ∪ {[P]})
    (set_plugins <[P := fresh (dom (plugin_store a))]>
       (new_plugin (fresh (dom (plugin_store a))) P a)).
Proof.
  intros HR HP. split; simpl.
  - intros n p. rewrite lookup_insert. case_decide as Hd.
    + intros [= <-]. subst n. by rewrite lookup_insert_eq.
    + intros Hn. pose proof (reg_plugins _ _ _ HR n p Hn) as Hs.
      rewrite lookup_insert_ne; [done|]. intros <-.
      apply (is_fresh (dom (plugin_store a))). apply elem_of_dom. eauto.
  - apply store_registered_new; [|done]. apply (reg_store _ _ _ HR).
  - intros n p d. rewrite lookup_insert. case_decide as Hd; [set_solver|].
    intros Hn HnS Hdn.
    destruct (reg_closed _ _ _ HR n p d Hn) as (pd & Hpd); [set_solver|done|].
    rewrite lookup_insert. case_decide; eauto.
  - apply (reg_initialized _ _ _ HR).
  - apply (reg_running _ _ _ HR).
Qed.

Lemma RegInv_Inv a : RegInv classes ∅ a → Inv classes Init ∅ a.
Proof.
  intros HR.
  assert (Hreg : ∀ p s, get_state p a = Ok s → s = registered).
  { intros p s (n & Hp)%get_state_Some.
    pose proof (reg_store _ _ _ HR p _ Hp) as Hn. simpl in Hn.
    pose proof (reg_plugins _ _ _ HR _ _ Hn) as Hs. congruence. }
  split; simpl.
  - intros n p Hp. exists registered. by apply (reg_plugins _ _ _ HR).
  - intros p s n d Hp _ Hd.
    pose proof (reg_store _ _ _ HR p _ Hp) as Hn. simpl in Hn.
    destruct (reg_closed _ _ _ HR n p d Hn) as (pd & Hpd); [set_solver|done|].
    exists pd, registered. split; [done|]. split; [|by left].
    by apply (reg_plugins _ _ _ HR).
  - intros p Hp. by apply Hreg in Hp.
  - rewrite (reg_initialized _ _ _ HR). by intros p ?%elem_of_nil.
  - rewrite (reg_initialized _ _ _ HR). apply NoDup_nil_2.
  - rewrite (reg_initialized _ _ _ HR). by intros p s n d ?%elem_of_nil.
Qed.

(** Once the initialization is over, the invariant of the startup phase
    holds: nothing is started yet, and a plugin that is initialized has its
    dependencies initialized. *)
Lemma Inv_Init_Start a :
  Inv classes Init ∅ a →
  (∀ p s, get_state p a = Ok s → s = registered ∨ s = initialized) →
  running_plugins a = [] →
  Inv classes Start ∅ a.
Proof.
  intros HI Hstates Hrun. split; simpl.
  - apply (inv_plugins _ _ _ _ HI).
  - intros p s n d Hp Hg Hd.
    assert (s = initialized) as ->.
    { destruct Hg as [Hg|Hg]; simpl in Hg; [done|]. subst s.
      by destruct (Hstates p started (get_state_store _ _ _ _ Hp)). }
    destruct (inv_done _ _ _ _ HI p (get_state_store _ _ _ _ Hp)) as [Hin|Hin];
      [|set_solver].
    destruct (inv_deps _ _ _ _ HI p _ n d Hin Hp Hd) as (pd & Hpd & Hb).
    apply occurs_before_elem in Hb as [Hpdin _].
    pose proof (inv_order_state _ _ _ _ HI pd Hpdin) as Hsd. simpl in Hsd.
    destruct (inv_plugins _ _ _ _ HI d pd Hpd) as (sd & Hstore).
    rewrite (get_state_store _ _ _ _ Hstore) in Hsd. injection Hsd as ->.
    exists pd, initialized. split; [done|]. split; [done|by left].
  - intros p Hp. by destruct (Hstates p started Hp).
  - rewrite Hrun. by intros p ?%elem_of_nil.
  - rewrite Hrun. apply NoDup_nil_2.
  - rewrite Hrun. by intros p s n d ?%elem_of_nil.
Qed.

End Invariant.

Section Acyclic.
Variable classes : gmap string (list string).
Variable rank : string → nat.
Hypothesis acyclic : ∀ n d, d ∈ requires_of classes n → rank d < rank n.

(** A transition invoked on a plugin of an acyclic table, whose plugins in
    progress [busy] all rank above it, returns normally and restores the
    invariant. *)
Lemma advance_spec ph fuel : ∀ (busy : gset nat) this a s n,
  Inv classes ph busy a →
  plugin_store a !! this = Some (Plugin s n) →
  good ph s →
  rank n < fuel →
  (∀ q sq m, q ∈ busy → plugin_store a !! q = Some (Plugin sq m) → rank n < rank m) →
  ∃ a', advance classes ph fuel this a = Ok a' ∧
        Inv classes ph busy a' ∧ steps ph a a' ∧
        get_state this a' = Ok (phase_to ph).
Proof.
  induction fuel as [|fuel IH]; intros busy this a s n HI Hthis Hgood Hfuel HS; [lia|].
  simpl. unfold deref. rewrite Hthis. simpl.
  case_decide as Hfrom.
  2:{ destruct Hgood as [? | ->]; [done|]. simpl.
      rewrite (get_state_store _ _ _ _ Hthis). simpl.
      case_decide; [|done]. exists a. split; [done|]. split; [done|].
      split; [apply steps_refl|by eapply get_state_store]. }
  subst s. set (a1 := set_state this (phase_to ph) a).
  assert (HI1 : Inv classes ph (busy ∪ {[this]}) a1) by (by eapply Inv_set_state).
  assert (Hthis1 : plugin_store a1 !! this = Some (Plugin (phase_to ph) n))
    by (by eapply store_set_state_eq).
  (* the plugin itself stays in the target state while its dependencies move *)
  assert (Hkeep : ∀ b, steps ph a1 b →
            plugin_store b !! this = Some (Plugin (phase_to ph) n)).
  { intros b Hb. destruct (steps_fwd _ _ _ Hb _ _ _ Hthis1) as (s' & Hs' & Hor).
    by destruct Hor as [->|[_ ->]]. }
  (* names of the plugins in progress, read in a later state *)
  assert (Hrank : ∀ b, steps ph a1 b → ∀ q sq m,
            q ∈ busy ∪ {[this]} → plugin_store b !! q = Some (Plugin sq m) →
            rank n ≤ rank m).
  { intros b Hb q sq m Hq Hqb.
    destruct (steps_bwd _ _ _ Hb _ _ _ Hqb) as (s1 & Hq1).
    apply store_set_state_inv in Hq1 as [(-> & _ & s0 & Hs0)|[Hne Hq0]].
    - rewrite Hthis in Hs0. by simplify_eq.
    - assert (q ∈ busy) as HqS.
      { apply elem_of_union in Hq as [Hq|Hq]; [done|].
        by apply elem_of_singleton in Hq. }
      apply Nat.lt_le_incl. by apply (HS q s1 m). }
  destruct (plugin_requires_total
              (λ b, Inv classes ph (busy ∪ {[this]}) b ∧ steps ph a1 b)
              (register_plugin classes fuel) (advance classes ph fuel)
              (requires_of classes n)) with (a := a1)
    as (a2 & Hdeps & HI2 & Hst2).
  { intros d b Hd [HIb Hstb].
    destruct (inv_good _ _ _ _ HIb this _ n d (Hkeep b Hstb)) as (pd & sd & Hpd & Hsd & Hgd);
      [by right|done|].
    pose proof (acyclic n d Hd) as Hlt.
    destruct fuel as [|fuel']; [lia|].
    exists pd, b. split; [by apply register_plugin_found|].
    destruct (IH (busy ∪ {[this]}) pd b sd d HIb Hsd Hgd) as (b' & Hadv & HIb' & Hstb' & _).
    - lia.
    - intros q sq m Hq Hqb. pose proof (Hrank b Hstb q sq m Hq Hqb). lia.
    - exists b'. split; [done|]. split; [done|]. by eapply steps_trans. }
  { split; [done|apply steps_refl]. }
  rewrite Hdeps. simpl.
  pose proof (Hkeep a2 Hst2) as Hthis2.
  rewrite get_state_notify, (get_state_store _ _ _ _ Hthis2). simpl.
  case_decide; [|done]. eexists. split; [done|].
  split; [|split].
  - eapply Inv_notify; [exact HI2|exact Hthis2| |].
    + (* not logged yet: it was in the entry state on entry *)
      destruct (steps_order _ _ _ Hst2) as (l & Hl & Hf). rewrite Hl.
      unfold a1. rewrite phase_order_set_state.
      intros [Hin|Hin]%elem_of_app.
      * pose proof (inv_order_state _ _ _ _ HI this Hin) as Hs.
        rewrite (get_state_store _ _ _ _ Hthis) in Hs. injection Hs as Hs.
        by apply eq_sym, phase_to_ne_from in Hs.
      * pose proof (Hf this Hin) as Hs.
        rewrite (get_state_store _ _ _ _ Hthis1) in Hs. injection Hs as Hs.
        by apply phase_to_ne_from in Hs.
    + (* every dependency is logged: it is in the target state and not in
         progress, since it ranks below *)
      intros d Hd.
      destruct (plugin_requires_advance_all classes ph fuel _ _ _ Hdeps d Hd)
        as (pd & Hpd & Hsd).
      exists pd. split; [done|].
      destruct (inv_plugins _ _ _ _ HI2 d pd Hpd) as (sd & Hstore).
      destruct (inv_done _ _ _ _ HI2 pd Hsd) as [Hin|Hin]; [done|].
      pose proof (Hrank a2 Hst2 pd sd d Hin Hstore).
      pose proof (acyclic n d Hd). lia.
  - by eapply steps_wrap.
  - rewrite get_state_notify. by eapply get_state_store.
Qed.

(** Registration in an acyclic table returns and leaves the registry closed
    under dependencies, every object being [registered]. *)
Lemma register_spec fuel : ∀ (busy : gset string) P a,
  RegInv classes busy a → rank P < fuel →
  ∃ p a', register_plugin classes fuel P a = Ok (p, a') ∧
          RegInv classes busy a' ∧ plugins a' !! P = Some p ∧
          plugins a ⊆ plugins a'.
Proof.
  induction fuel as [|fuel IH]; intros busy P a HR Hfuel; [lia|]. simpl.
  unfold find_plugin. destruct (plugins a !! P) as [existing|] eqn:HP.
  { exists existing, a. done. }
  set (plug := fresh (dom (plugin_store a))).
  set (a1 := set_plugins <[P := plug]> (new_plugin plug P a)).
  assert (HR1 : RegInv classes (busy ∪ {[P]}) a1) by (by apply RegInv_new).
  destruct (plugin_requires_total
              (λ b, RegInv classes (busy ∪ {[P]}) b ∧ plugins a1 ⊆ plugins b)
              (register_plugin classes fuel) (λ _ a, Ok a)
              (requires_of classes P)) with (a := a1)
    as (a2 & Hdeps & HR2 & Hsub).
  { intros d b Hd [HRb Hsubb]. pose proof (acyclic P d Hd).
    destruct (IH (busy ∪ {[P]}) d b HRb) as (p & b' & Hreg & HRb' & _ & Hsub');
      [lia|].
    exists p, b'. split; [done|]. exists b'. split; [done|]. split; [done|].
    by etrans. }
  { done. }
  rewrite Hdeps. simpl. exists plug, a2. split; [done|].
  assert (HP2 : plugins a2 !! P = Some plug).
  { eapply lookup_weaken; [|exact Hsub]. simpl. by rewrite lookup_insert_eq. }
  split; [|split; [done|]].
  - split; try apply HR2.
    intros n p d Hn HnS Hd. destruct (decide (n = P)) as [->|Hne].
    + by eapply plugin_requires_registers.
    + apply (reg_closed _ _ _ HR2 n p d Hn); [|done].
      rewrite elem_of_union, elem_of_singleton. tauto.
  - etrans; [|exact Hsub]. simpl. by apply insert_subseteq.
Qed.

Lemma startup_each_spec fuel : (∀ n, rank n < fuel) → ∀ l a,
  Inv classes Start ∅ a →
  (∀ p, p ∈ l → ∃ s n, plugin_store a !! p = Some (Plugin s n) ∧ good Start s) →
  ∃ a', startup_each classes fuel l a = Ok a' ∧
        Inv classes Start ∅ a' ∧ steps Start a a' ∧
        ∀ p, p ∈ l → get_state p a' = Ok started.
Proof.
  intros Hfuel. induction l as [|p l IH]; intros a HI Hl; simpl.
  - exists a. split; [done|]. split; [done|]. split; [apply steps_refl|].
    by intros p ?%elem_of_nil.
  - destruct (Hl p) as (s & n & Hp & Hg); [by apply list_elem_of_here|].
    rewrite startup_advance.
    destruct (advance_spec Start fuel ∅ p a s n HI Hp Hg (Hfuel n))
      as (a1 & -> & HI1 & Hst1 & Hs1); [by intros q sq m ?%elem_of_empty|]. simpl.
    destruct (IH a1 HI1) as (a' & Hrun & HI' & Hst' & Hall).
    { intros q Hq. destruct (Hl q) as (sq & nq & Hsq & Hgq);
        [by apply list_elem_of_further|].
      destruct (steps_fwd _ _ _ Hst1 _ _ _ Hsq) as (s' & Hs' & Hor).
      exists s', nq. split; [done|]. destruct Hor as [->|[_ ->]]; [done|by right]. }
    exists a'. split; [done|]. split; [done|].
    split; [by eapply steps_trans|].
    intros q [->|Hq]%elem_of_cons; [|by apply Hall].
    apply get_state_Some in Hs1 as (m & Hm).
    destruct (steps_fwd _ _ _ Hst' _ _ _ Hm) as (s' & Hs' & Hor).
    apply get_state_Some. exists m. by destruct Hor as [->|[? _]].
Qed.

End Acyclic.

Lemma ranked_requires classes rank :
  ranked classes rank → ∀ n d, d ∈ requires_of classes n → rank d < rank n.
Proof.
  intros Hr n d. unfold requires_of.
  destruct (classes !! n) as [ds|] eqn:Hn; simpl.
  - revert d. apply Forall_forall. by apply (Hr n ds).
  - by intros ?%elem_of_nil.
Qed.

Lemma RegInv_application_new classes io : RegInv classes ∅ (application_new io).
Proof.
  split; simpl; done.
Qed.

(** C1, as stated, fails on cyclic declarations.  Where [A] requires [B] and
    [B] requires [A], [startup_all] logs [A] (object 0) before its dependency
    [B] (object 1); where [A] requires itself, the dependency does not occur
    strictly before the plugin in [initialized_plugins]. *)
Lemma cyclic_dependency_order :
  ("B"%string ∈ requires_of cyclic_pair "A" ∧
   ∃ a1 a2 a3,
     register_plugin cyclic_pair 3 "A" (application_new 0) = Ok (0, a1) ∧
     initialize_all cyclic_pair 3 ["A"%string] a1 = Ok a2 ∧
     startup_all cyclic_pair 3 a2 = Ok a3 ∧
     find_plugin "A" a3 = Some 0 ∧ find_plugin "B" a3 = Some 1 ∧
     running_plugins a3 = [0; 1] ∧
     ¬ occurs_before 1 0 (running_plugins a3)) ∧
  ("A"%string ∈ requires_of self_cycle "A" ∧
   ∃ a1 a2,
     register_plugin self_cycle 3 "A" (application_new 0) = Ok (0, a1) ∧
     initialize_all self_cycle 3 ["A"%string] a1 = Ok a2 ∧
     find_plugin "A" a2 = Some 0 ∧
     initialized_plugins a2 = [0] ∧
     ¬ occurs_before 0 0 (initialized_plugins a2)).
Proof.
  split.
  - split; [vm_compute; apply list_elem_of_here|].
    eexists _, _, _. split; [by vm_compute|]. split; [by vm_compute|].
    split; [by vm_compute|]. split; [by vm_compute|]. split; [by vm_compute|].
    split; [by vm_compute|].
    intros (i & j & Hi & Hj & Hij). vm_compute in Hi, Hj.
    destruct i as [|[|i]]; try discriminate.
    destruct j as [|j]; [lia|]. destruct j; discriminate.
  - split; [vm_compute; apply list_elem_of_here|].
    eexists _, _. split; [by vm_compute|]. split; [by vm_compute|].
    split; [by vm_compute|]. split; [by vm_compute|].
    intros (i & j & Hi & Hj & Hij). vm_compute in Hi, Hj.
    destruct i as [|i]; [|destruct i; discriminate].
    destruct j as [|j]; [lia|]. destruct j; discriminate.
Qed.

(** C1, amended: in an acyclic table of classes, where [A] requires [B]:
    after [A] is registered and [initialize_all [A]] has run, [B] is
    [initialized] and occurs in [initialized_plugins] strictly before [A];
    after [startup_all], [B] is [started] and occurs in [running_plugins]
    strictly before [A].  All three operations return normally, and each log
    holds a plugin at most once. *)
Theorem dependencies_first classes rank fuel a0 A B :
  ranked classes rank →
  (∀ n, rank n < fuel) →
  RegInv classes ∅ a0 →
  B ∈ requires_of classes A →
  ∃ pA pB a1 a2 a3,
    register_plugin classes fuel A a0 = Ok (pA, a1) ∧
    initialize_all classes fuel [A] a1 = Ok a2 ∧
    startup_all classes fuel a2 = Ok a3 ∧
    find_plugin A a2 = Some pA ∧ find_plugin B a2 = Some pB ∧
    get_state pB a2 = Ok initialized ∧
    NoDup (initialized_plugins a2) ∧
    occurs_before pB pA (initialized_plugins a2) ∧
    find_plugin A a3 = Some pA ∧ find_plugin B a3 = Some pB ∧
    get_state pB a3 = Ok started ∧
    NoDup (running_plugins a3) ∧
    occurs_before pB pA (running_plugins a3).
Proof.
  intros Hranked Hfuel HR0 HB.
  pose proof (ranked_requires _ _ Hranked) as Hacyc.
  (* registration *)
  destruct (register_spec classes rank Hacyc fuel ∅ A a0 HR0 (Hfuel A))
    as (pA & a1 & Hreg & HR1 & HA1 & _).
  pose proof (RegInv_Inv classes a1 HR1) as HI1.
  pose proof (reg_plugins _ _ _ HR1 A pA HA1) as HpA1.
  (* initialization *)
  destruct (advance_spec classes rank Hacyc Init fuel ∅ pA a1 registered A
              HI1 HpA1) as (a2 & Hinit & HI2 & Hst2 & HsA2);
    [by left | apply Hfuel | set_solver |].
  assert (Hall2 : initialize_all classes fuel [A] a1 = Ok a2).
  { unfold initialize_all. simpl. unfold find_plugin.
    rewrite HA1, initialize_advance, Hinit. done. }
  assert (HA2 : plugins a2 !! A = Some pA) by (by rewrite (steps_plugins _ _ _ Hst2)).
  destruct (inv_plugins _ _ _ _ HI2 A pA HA2) as (sA & HpA2).
  destruct (inv_done _ _ _ _ HI2 pA HsA2) as [HinA|?]; [|set_solver].
  destruct (inv_deps _ _ _ _ HI2 pA sA A B HinA HpA2 HB) as (pB & HB2 & Hbefore2).
  (* startup *)
  assert (Hstates2 : ∀ p s, get_state p a2 = Ok s → s = registered ∨ s = initialized).
  { intros p s (n & Hp)%get_state_Some.
    destruct (steps_bwd _ _ _ Hst2 _ _ _ Hp) as (s1 & Hp1).
    pose proof (reg_store _ _ _ HR1 p _ Hp1) as Hn. simpl in Hn.
    pose proof (reg_plugins _ _ _ HR1 _ _ Hn) as Hs1.
    destruct (steps_fwd _ _ _ Hst2 _ _ _ Hs1) as (s' & Hs' & Hor).
    rewrite Hp in Hs'. injection Hs' as <-.
    destruct Hor as [->|[_ ->]]; [by left|by right]. }
  assert (Hrun2 : running_plugins a2 = []).
  { pose proof (steps_other _ _ _ Hst2) as Ho. simpl in Ho.
    by rewrite Ho, (reg_running _ _ _ HR1). }
  pose proof (Inv_Init_Start classes a2 HI2 Hstates2 Hrun2) as HS2.
  destruct (startup_each_spec classes rank Hacyc fuel Hfuel
              (initialized_plugins a2) a2 HS2) as (a3 & Hstart & HI3 & Hst3 & Hall3).
  { intros p Hp. pose proof (inv_order_state _ _ _ _ HI2 p Hp) as Hs.
    apply get_state_Some in Hs as (n & Hn). exists initialized, n.
    split; [done|by left]. }
  pose proof (Hall3 pA HinA) as HsA3.
  assert (HA3 : plugins a3 !! A = Some pA) by (by rewrite (steps_plugins _ _ _ Hst3)).
  assert (HB3 : plugins a3 !! B = Some pB) by (by rewrite (steps_plugins _ _ _ Hst3)).
  destruct (inv_plugins _ _ _ _ HI3 A pA HA3) as (sA3 & HpA3).
  destruct (inv_done _ _ _ _ HI3 pA HsA3) as [HinA3|?]; [|set_solver].
  destruct (inv_deps _ _ _ _ HI3 pA sA3 A B HinA3 HpA3 HB) as (pB' & HB3' & Hbefore3).
  rewrite HB3 in HB3'. injection HB3' as <-.
  exists pA, pB, a1, a2, a3.
  split; [done|]. split; [done|]. split; [done|]. split; [done|]. split; [done|].
  split.
  { apply (inv_order_state _ _ _ _ HI2). by apply occurs_before_elem in Hbefore2 as [? _]. }
  split; [apply (inv_nodup _ _ _ _ HI2)|]. split; [done|].
  split; [done|]. split; [done|].
  split.
  { apply (inv_order_state _ _ _ _ HI3). by apply occurs_before_elem in Hbefore3 as [? _]. }
  split; [apply (inv_nodup _ _ _ _ HI3)|]. done.
Qed.

Lemma dependencies_first_witness :
  ∃ pNet pConfig a1 a2 a3,
    register_plugin net_config 3 "Net" (application_new 0) = Ok (pNet, a1) ∧
    initialize_all net_config 3 ["Net"%string] a1 = Ok a2 ∧
    startup_all net_config 3 a2 = Ok a3 ∧
    find_plugin "Net" a2 = Some pNet ∧ find_plugin "Config" a2 = Some pConfig ∧
    occurs_before pConfig pNet (initialized_plugins a2) ∧
    occurs_before pConfig pNet (running_plugins a3).
Proof.
  destruct (dependencies_first net_config net_rank 3 (application_new 0)
              "Net" "Config")
    as (pA & pB & a1 & a2 & a3 & H1 & H2 & H3 & H4 & H5 & _ & _ & H6 & _ & _ & _ & _ & H7).
  - apply (bool_decide_unpack _). by vm_compute.
  - intros n. unfold net_rank. case_decide; lia.
  - apply RegInv_application_new.
  - vm_compute. apply list_elem_of_here.
  - exists pA, pB, a1, a2, a3. done.
Defined.

(** * Further properties *)

(** ** Registration: what it adds and what it leaves alone *)

Lemma only_registers_refl a : only_registers a a.
Proof.
  split; try done.
  - intros q o Hq. by left.
  - exists []. by rewrite app_nil_r.
Qed.

Lemma only_registers_trans a b c :
  only_registers a b → only_registers b c → only_registers a c.
Proof.
  intros Hab Hbc. split.
  - by rewrite (or_initialized _ _ Hbc), (or_initialized _ _ Hab).
  - by rewrite (or_running _ _ Hbc), (or_running _ _ Hab).
  - etrans; [apply (or_store _ _ Hab) | apply (or_store _ _ Hbc)].
  - intros q o Hq. destruct (or_new _ _ Hbc q o Hq) as [Hb|[Hb Hs]].
    + by apply (or_new _ _ Hab).
    + right. split; [|done].
      destruct (plugin_store a !! q) as [o'|] eqn:Ha; [|done].
      pose proof (lookup_weaken _ _ _ _ Ha (or_store _ _ Hab)). congruence.
  - destruct (or_trace _ _ Hab) as (n1 & H1 & F1).
    destruct (or_trace _ _ Hbc) as (n2 & H2 & F2).
    exists (n1 ++ n2). split; [by rewrite H2, H1, app_assoc|].
    by apply Forall_app.
Qed.

#[global] Instance only_registers_preorder : PreOrder only_registers.
Proof. split; [exact only_registers_refl | exact only_registers_trans]. Qed.

Lemma only_registers_new P a :
  only_registers a
    (set_plugins <[P := fresh (dom (plugin_store a))]>
       (new_plugin (fresh (dom (plugin_store a))) P a)).
Proof.
  assert (Hfresh : plugin_store a !! fresh (dom (plugin_store a)) = None).
  { apply not_elem_of_dom. apply is_fresh. }
  split; simpl; try done.
  - by apply insert_subseteq.
  - intros q o. rewrite lookup_insert. case_decide as Hd.
    + intros [= <-]. subst q. by right.
    + by left.
  - exists [New (fresh (dom (plugin_store a))) P]. split; [done|].
    by repeat constructor.
Qed.

Lemma register_plugin_only_registers classes fuel : ∀ P a p a',
  register_plugin classes fuel P a = Ok (p, a') → only_registers a a'.
Proof.
  induction fuel as [|fuel IH]; simpl; intros P a p a' H; [discriminate|].
  destruct (find_plugin P a) as [existing|].
  - injection H as <- <-. reflexivity.
  - apply bind_Ok in H as (a1 & H1 & H). injection H as <- <-.
    etrans; [apply only_registers_new|].
    eapply (plugin_requires_preorder only_registers); [| |exact H1].
    + intros elem b q b' Hb. by eapply IH.
    + intros q b b' [= <-]. reflexivity.
Qed.

(** X1: [register_plugin] only registers.  It leaves both logs alone, keeps
    every object that was alive as it was, makes new objects in state
    [registered] only, and records nothing but constructions: no hook runs
    and no state is set. *)
Theorem register_plugin_only_constructs classes fuel P a p a' :
  register_plugin classes fuel P a = Ok (p, a') →
  initialized_plugins a' = initialized_plugins a ∧
  running_plugins a' = running_plugins a ∧
  methods a' = methods a ∧ channels a' = channels a ∧
  (∀ q s, get_state q a = Ok s → get_state q a' = Ok s) ∧
  (∀ q s, get_state q a' = Ok s → get_state q a = Fault → s = registered) ∧
  ∃ news, trace a' = trace a ++ news ∧ Forall is_New news.
Proof.
  intros H. pose proof (register_plugin_only_registers _ _ _ _ _ _ H) as Hor.
  pose proof (register_plugin_grows _ _ _ _ _ _ H) as [Hg _].
  split; [apply (or_initialized _ _ Hor)|]. split; [apply (or_running _ _ Hor)|].
  split; [apply (grows_methods _ _ Hg)|]. split; [apply (grows_channels _ _ Hg)|].
  split; [|split; [|apply (or_trace _ _ Hor)]].
  - intros q s. exact (register_plugin_keeps _ s _ _ _ _ _ H q).
  - intros q s (n & Hq)%get_state_Some Hf.
    destruct (or_new _ _ Hor q _ Hq) as [Ha|[_ Hs]]; [|done].
    by rewrite (get_state_store _ _ _ _ Ha) in Hf.
Qed.

Lemma register_plugin_only_constructs_witness :
  initialized_plugins net_registered = [] ∧
  running_plugins net_registered = [] ∧
  ∃ news, trace net_registered = [] ++ news ∧ Forall is_New news.
Proof.
  destruct (register_plugin_only_constructs net_config 3 "Net" (application_new 0)
              0 net_registered) as (H1 & H2 & _ & _ & _ & _ & H3);
    [by vm_compute|].
  split; [exact H1|]. split; [exact H2|exact H3].
Defined.

(** ** The registry and the live objects agree *)

#[global] Instance preserves_preorder I : PreOrder (preserves I).
Proof. split; [intros a Ha; exact Ha | intros a b c Hab Hbc Ha; by apply Hbc, Hab]. Qed.

Lemma sound_lookup a n p :
  sound a → plugins a !! n = Some p →
  ∃ s, plugin_store a !! p = Some (Plugin s n).
Proof.
  intros [H1 _] Hp. specialize (H1 n p Hp). simpl in H1.
  destruct (plugin_store a !! p) as [[s m]|]; simpl in H1; [|done].
  injection H1 as ->. eauto.
Qed.

Lemma sound_intro a :
  (∀ n p, plugins a !! n = Some p → ∃ s, plugin_store a !! p = Some (Plugin s n)) →
  store_registered a → sound a.
Proof.
  intros H1 H2. split; [|done]. intros n p Hp.
  destruct (H1 n p Hp) as (s & ->). done.
Qed.

Lemma sound_new P a :
  sound a → plugins a !! P = None →
  sound (set_plugins <[P := fresh (dom (plugin_store a))]>
           (new_plugin (fresh (dom (plugin_store a))) P a)).
Proof.
  intros Hs HP. apply sound_intro; [|apply store_registered_new; [apply Hs|done]].
  intros n p. simpl. rewrite lookup_insert. case_decide as Hd.
  - intros [= <-]. subst n. rewrite lookup_insert_eq. eauto.
  - intros Hn. destruct (sound_lookup a n p Hs Hn) as (s & Hp). exists s.
    rewrite lookup_insert_ne; [done|]. intros <-.
    apply (is_fresh (dom (plugin_store a))). apply elem_of_dom. eauto.
Qed.

Lemma sound_set_state this s a : sound a → sound (set_state this s a).
Proof.
  intros Hs. apply sound_intro; [|apply store_registered_set_state, Hs].
  intros n p Hp. destruct (sound_lookup a n p Hs Hp) as (s0 & Hs0).
  rewrite (store_set_state_fwd _ _ _ _ _ _ Hs0). eauto.
Qed.

Lemma sound_notify ph this e a :
  sound a → sound (phase_notify ph this (log e a)).
Proof. intros Hs. by destruct ph. Qed.

Lemma register_plugin_sound classes fuel : ∀ P a p a',
  register_plugin classes fuel P a = Ok (p, a') → sound a → sound a'.
Proof.
  induction fuel as [|fuel IH]; simpl; intros P a p a' H; [discriminate|].
  unfold find_plugin in H. destruct (plugins a !! P) as [existing|] eqn:HP.
  - by injection H as <- <-.
  - apply bind_Ok in H as (a1 & H1 & H). injection H as <- <-. intros Hs.
    eapply (plugin_requires_preorder (preserves sound)); [| |exact H1|].
    + intros elem b q b' Hb Hsb. by eapply IH.
    + intros q b b' [= <-] Hsb. exact Hsb.
    + by apply sound_new.
Qed.

Lemma advance_sound classes ph fuel : ∀ this a a',
  advance classes ph fuel this a = Ok a' → sound a → sound a'.
Proof.
  induction fuel as [|fuel IH]; simpl; intros this a a' H; [discriminate|].
  apply bind_Ok in H as (o & Ho & H). apply bind_Ok in H as (a1 & H1 & H).
  apply bind_Ok in H as (s & _ & H). case_decide; [|discriminate].
  injection H as <-.
  case_decide; [|by injection H1 as <-].
  apply bind_Ok in H1 as (a2 & H2 & H1). injection H1 as <-. intros Hs.
  apply sound_notify.
  eapply (plugin_requires_preorder (preserves sound)); [| |exact H2|].
  - intros elem b q b' Hb Hsb. by eapply register_plugin_sound.
  - intros q b b' Hb Hsb. by eapply IH.
  - by apply sound_set_state.
Qed.

Lemma shutdown_sound this a a' : shutdown this a = Ok a' → sound a → sound a'.
Proof.
  unfold shutdown. intros H. apply bind_Ok in H as (o & _ & H).
  case_decide; injection H as <-; [|done].
  intros Hs. by apply sound_set_state.
Qed.

(** X2: the agreement of the registry with the live plugin objects is an
    invariant: it holds of the new application and every operation that
    returns keeps it.  Under it two classes never share an object, and the
    object of a class carries the name of the class. *)
Theorem registry_stays_sound classes fuel a :
  sound a →
  (∀ P p a', register_plugin classes fuel P a = Ok (p, a') → sound a') ∧
  (∀ this a', initialize classes fuel this a = Ok a' → sound a') ∧
  (∀ this a', startup classes fuel this a = Ok a' → sound a') ∧
  (∀ this a', shutdown this a = Ok a' → sound a') ∧
  (∀ n m p, find_plugin n a = Some p → find_plugin m a = Some p → n = m) ∧
  (∀ n p, find_plugin n a = Some p → name p a = Ok n).
Proof.
  intros Hs. split; [|split; [|split; [|split; [|split]]]].
  - intros P p a' H. by eapply register_plugin_sound.
  - intros this a' H. rewrite initialize_advance in H. by eapply advance_sound.
  - intros this a' H. rewrite startup_advance in H. by eapply advance_sound.
  - intros this a' H. by eapply shutdown_sound.
  - intros n m p Hn Hm.
    destruct (sound_lookup a n p Hs Hn) as (s & Hsn).
    destruct (sound_lookup a m p Hs Hm) as (s' & Hsm). congruence.
  - intros n p Hn. destruct (sound_lookup a n p Hs Hn) as (s & Hsn).
    unfold name, deref. by rewrite Hsn.
Qed.

Lemma registry_stays_sound_witness :
  sound (application_new 0) ∧ sound net_registered ∧ sound net_initialized ∧
  name 1 net_initialized = Ok "Config"%string.
Proof.
  assert (H0 : sound (application_new 0)).
  { split; apply (bool_decide_unpack _); by vm_compute. }
  destruct (registry_stays_sound net_config 3 (application_new 0) H0)
    as (Hreg & _).
  assert (H1 : sound net_registered).
  { apply (Hreg "Net"%string 0). by vm_compute. }
  destruct (registry_stays_sound net_config 3 net_registered H1)
    as (_ & Hinit & _).
  assert (H2 : sound net_initialized).
  { apply (Hinit 0). by vm_compute. }
  destruct (registry_stays_sound net_config 3 net_initialized H2)
    as (_ & _ & _ & _ & _ & Hname).
  split; [done|]. split; [done|]. split; [done|].
  apply Hname. by vm_compute.
Defined.

(** ** Lookup after registration *)

(** X3: after [register_plugin<P>] has returned an object, [get_plugin<P>]
    returns that object and the object is named [P]; when [P] was not
    registered before, the object is a new one, in state [registered].
    [get_plugin] of a class that is not registered dereferences the null
    pointer. *)
Theorem get_plugin_after_register classes fuel P a p a' :
  sound a →
  register_plugin classes fuel P a = Ok (p, a') →
  get_plugin P a' = Ok p ∧ name p a' = Ok P ∧
  (find_plugin P a = None →
     get_state p a = Fault ∧ get_state p a' = Ok registered) ∧
  (∀ Q, find_plugin Q a' = None → get_plugin Q a' = Fault).
Proof.
  intros Hs H.
  pose proof (register_plugin_grows _ _ _ _ _ _ H) as [_ HP].
  pose proof (register_plugin_sound _ _ _ _ _ _ H Hs) as Hs'.
  pose proof (register_plugin_only_registers _ _ _ _ _ _ H) as Hor.
  destruct (sound_lookup a' P p Hs' HP) as (s & Hp).
  split; [|split; [|split]].
  - unfold get_plugin, find_plugin. by rewrite HP.
  - unfold name, deref. by rewrite Hp.
  - intros Hnone.
    assert (Hf : plugin_store a !! p = None).
    { destruct (plugin_store a !! p) as [o|] eqn:Ho; [|done].
      pose proof (lookup_weaken _ _ _ _ Ho (or_store _ _ Hor)) as Ho'.
      rewrite Hp in Ho'. injection Ho' as <-.
      pose proof (proj2 Hs p _ Ho) as Hn. simpl in Hn.
      unfold find_plugin in Hnone. congruence. }
    split; [unfold get_state, deref; by rewrite Hf|].
    destruct (or_new _ _ Hor p _ Hp) as [Ha|[_ Hst]]; [congruence|].
    simpl in Hst. subst s. by eapply get_state_store.
  - intros Q HQ. unfold get_plugin. by rewrite HQ.
Qed.

Lemma get_plugin_after_register_witness :
  get_plugin "Net" net_registered = Ok 0 ∧
  name 0 net_registered = Ok "Net"%string ∧
  get_state 0 net_registered = Ok registered ∧
  get_plugin "Other" net_registered = Fault.
Proof.
  destruct (get_plugin_after_register net_config 3 "Net" (application_new 0) 0
              net_registered) as (H1 & H2 & H3 & H4).
  - split; apply (bool_decide_unpack _); by vm_compute.
  - by vm_compute.
  - split; [exact H1|]. split; [exact H2|].
    split; [apply H3; by vm_compute | apply H4; by vm_compute].
Defined.

(** ** Registration closes the registry under requirements, cycles included *)

Lemma requires_of_in classes n d :
  d ∈ requires_of classes n → ∃ ds, classes !! n = Some ds.
Proof.
  unfold requires_of. destruct (classes !! n) as [ds|]; simpl; [eauto|].
  by intros ?%elem_of_nil.
Qed.

Lemma unregistered_le classes a : size (unregistered classes a) ≤ size classes.
Proof.
  rewrite <- (size_dom (D := gset string)). apply subseteq_size.
  intros n. unfold unregistered. rewrite elem_of_filter. tauto.
Qed.

Lemma closed_new classes busy P a :
  closed classes busy a → plugins a !! P = None →
  closed classes (busy ∪ {[P]})
    (set_plugins <[P := fresh (dom (plugin_store a))]>
       (new_plugin (fresh (dom (plugin_store a))) P a)).
Proof.
  intros Hc HP n p d. simpl. rewrite lookup_insert. case_decide as Hd.
  - intros _ Hn. exfalso. apply Hn. subst n.
    apply elem_of_union. right. by apply elem_of_singleton.
  - intros Hn HnS Hdn.
    destruct (Hc n p d Hn) as (pd & Hpd); [|done|].
    + intros Hb. apply HnS. apply elem_of_union. by left.
    + rewrite lookup_insert. case_decide; eauto.
Qed.

Lemma register_closure classes fuel : ∀ (busy : gset string) P a,
  sound a → closed classes busy a → size (unregistered classes a) < fuel →
  ∃ p a', register_plugin classes fuel P a = Ok (p, a') ∧
          sound a' ∧ closed classes busy a' ∧
          plugins a' !! P = Some p ∧ plugins a ⊆ plugins a'.
Proof.
  induction fuel as [|fuel IH]; intros busy P a Hs Hc Hsz; [lia|]. simpl.
  unfold find_plugin. destruct (plugins a !! P) as [existing|] eqn:HP.
  { exists existing, a. done. }
  set (plug := fresh (dom (plugin_store a))).
  set (a1 := set_plugins <[P := plug]> (new_plugin plug P a)).
  assert (Hs1 : sound a1) by (by apply sound_new).
  assert (Hc1 : closed classes (busy ∪ {[P]}) a1) by (by apply closed_new).
  destruct (plugin_requires_total
              (λ b, sound b ∧ closed classes (busy ∪ {[P]}) b ∧
                    plugins a1 ⊆ plugins b)
              (register_plugin classes fuel) (λ _ a, Ok a)
              (requires_of classes P)) with (a := a1)
    as (a2 & Hdeps & Hs2 & Hc2 & Hsub).
  { intros d b Hd (Hsb & Hcb & Hsubb).
    destruct (requires_of_in _ _ _ Hd) as (ds & Hds).
    pose proof (unregistered_insert classes P plug a ds Hds HP) as Hlt.
    pose proof (subseteq_size _ _ (unregistered_mono classes _ _ Hsubb)) as Hle.
    fold a1 in Hlt.
    destruct (IH (busy ∪ {[P]}) d b Hsb Hcb) as (p & b' & Hreg & Hsb' & Hcb' & _ & Hsub');
      [lia|].
    exists p, b'. split; [done|]. exists b'. split; [done|].
    split; [done|]. split; [done|]. by etrans. }
  { done. }
  rewrite Hdeps. simpl. exists plug, a2. split; [done|]. split; [done|].
  assert (HP2 : plugins a2 !! P = Some plug).
  { eapply lookup_weaken; [|exact Hsub]. simpl. by rewrite lookup_insert_eq. }
  split; [|split; [done|]].
  - intros n p d Hn HnS Hd. destruct (decide (n = P)) as [->|Hne].
    + by eapply plugin_requires_registers.
    + apply (Hc2 n p d Hn); [|done].
      rewrite elem_of_union, elem_of_singleton. tauto.
  - etrans; [|exact Hsub]. simpl. by apply insert_subseteq.
Qed.

(** X4: in a sound registry that is closed under requirements,
    [register_plugin<P>] returns for every table of classes, cyclic ones
    included, as soon as the call depth exceeds the number of classes; [P]
    and everything it requires is registered afterwards and the registry is
    closed again. *)
Theorem register_plugin_closes classes fuel P a :
  sound a → closed classes ∅ a → size classes < fuel →
  ∃ p a', register_plugin classes fuel P a = Ok (p, a') ∧
          find_plugin P a' = Some p ∧
          (∀ d, d ∈ requires_of classes P → is_Some (find_plugin d a')) ∧
          sound a' ∧ closed classes ∅ a'.
Proof.
  intros Hs Hc Hfuel.
  destruct (register_closure classes fuel ∅ P a Hs Hc) as (p & a' & H & Hs' & Hc' & HP & _).
  { pose proof (unregistered_le classes a). lia. }
  exists p, a'. split; [done|]. split; [done|]. split; [|done].
  intros d Hd. apply (Hc' P p d HP); [|done]. by intros ?%elem_of_empty.
Qed.

Lemma register_plugin_closes_witness :
  ∃ p a', register_plugin cyclic_pair 3 "A" (application_new 0) = Ok (p, a') ∧
          find_plugin "A" a' = Some p ∧
          is_Some (find_plugin "B" a') ∧
          closed cyclic_pair ∅ a'.
Proof.
  destruct (register_plugin_closes cyclic_pair 3 "A" (application_new 0))
    as (p & a' & H1 & H2 & H3 & _ & H4).
  - split; apply (bool_decide_unpack _); by vm_compute.
  - intros n p d Hn. simpl in Hn. by rewrite lookup_empty in Hn.
  - vm_compute. lia.
  - exists p, a'. split; [done|]. split; [done|]. split; [|done].
    apply H3. vm_compute. apply list_elem_of_here.
Defined.

(** ** Which states a transition touches *)

Lemma get_state_cases p a : get_state p a = Fault ∨ ∃ s, get_state p a = Ok s.
Proof.
  unfold get_state, deref. destruct (plugin_store a !! p); simpl; eauto.
Qed.

Lemma moves_refl ph a : moves ph a a.
Proof.
  split; [done| |].
  - intros p s Hp. by left.
  - intros p s' Hp Hf. congruence.
Qed.

Lemma moves_trans ph a b c : moves ph a b → moves ph b c → moves ph a c.
Proof.
  intros Hab Hbc. split.
  - by rewrite (moves_other _ _ _ Hbc), (moves_other _ _ _ Hab).
  - intros p s Hp. destruct (moves_alive _ _ _ Hab p s Hp) as [Hb|[-> Hb]].
    + apply (moves_alive _ _ _ Hbc p s Hb).
    + right. split; [done|].
      by destruct (moves_alive _ _ _ Hbc p _ Hb) as [Hc|[_ Hc]].
  - intros p s' Hc Ha. destruct (get_state_cases p b) as [Hb|(sb & Hb)].
    + by apply (moves_new _ _ _ Hbc p s' Hc).
    + destruct (moves_new _ _ _ Hab p sb Hb Ha) as [Hsb|[Hfr Hsb]];
        destruct (moves_alive _ _ _ Hbc p sb Hb) as [Hc'|[Hsf Hc']];
        rewrite Hc in Hc'; injection Hc' as ->.
      * by left.
      * right. split; [congruence|done].
      * right. done.
      * subst sb. by apply phase_to_ne_from in Hsf.
Qed.

#[global] Instance moves_preorder ph : PreOrder (moves ph).
Proof. split; [exact (moves_refl ph) | exact (moves_trans ph)]. Qed.

Lemma moves_set_state ph this a :
  get_state this a = Ok (phase_from ph) →
  moves ph a (set_state this (phase_to ph) a).
Proof.
  intros Hthis. split.
  - by destruct ph.
  - intros p s Hp. destruct (decide (p = this)) as [->|Hne].
    + right. rewrite Hthis in Hp. injection Hp as <-. split; [done|].
      by eapply get_state_set_state_eq.
    + left. by rewrite get_state_set_state_ne.
  - intros p s' Hp Hf. destruct (decide (p = this)) as [->|Hne]; [congruence|].
    rewrite get_state_set_state_ne in Hp by done. congruence.
Qed.

Lemma moves_notify ph this e a : moves ph a (phase_notify ph this (log e a)).
Proof.
  split.
  - apply phase_other_notify.
  - intros p s Hp. left. by rewrite get_state_notify.
  - intros p s' Hp Hf. rewrite get_state_notify in Hp. congruence.
Qed.

Lemma only_registers_moves ph a a' : only_registers a a' → moves ph a a'.
Proof.
  intros Hor. split.
  - destruct ph; simpl; [apply (or_running _ _ Hor)|apply (or_initialized _ _ Hor)].
  - intros p s (n & Hp)%get_state_Some. left.
    apply (get_state_store _ _ _ n). by eapply lookup_weaken, (or_store _ _ Hor).
  - intros p s' (n & Hp)%get_state_Some Hf. left.
    destruct (or_new _ _ Hor p _ Hp) as [Ha|[_ Hs]]; [|done].
    by rewrite (get_state_store _ _ _ _ Ha) in Hf.
Qed.

Lemma advance_moves classes ph fuel : ∀ this a a',
  advance classes ph fuel this a = Ok a' → moves ph a a'.
Proof.
  induction fuel as [|fuel IH]; simpl; intros this a a' H; [discriminate|].
  apply bind_Ok in H as (o & Ho & H). apply bind_Ok in H as (a1 & H1 & H).
  apply bind_Ok in H as (s & _ & H). case_decide; [|discriminate].
  injection H as <-.
  case_decide as Hfrom; [|injection H1 as <-; reflexivity].
  apply bind_Ok in H1 as (a2 & H2 & H1). injection H1 as <-.
  etrans; [apply moves_set_state|].
  { unfold get_state. rewrite Ho. simpl. by rewrite Hfrom. }
  etrans; [|apply moves_notify].
  eapply (plugin_requires_preorder (moves ph)); [| |exact H2].
  - intros elem b q b' Hb. eapply only_registers_moves.
    by eapply register_plugin_only_registers.
  - intros q b b' Hb. by eapply IH.
Qed.

Lemma registries_untouched_refl a : registries_untouched a a.
Proof. by split. Qed.

Lemma registries_untouched_trans a b c :
  registries_untouched a b → registries_untouched b c → registries_untouched a c.
Proof. intros [] []. split; congruence. Qed.

#[global] Instance registries_untouched_preorder : PreOrder registries_untouched.
Proof.
  split; [exact registries_untouched_refl | exact registries_untouched_trans].
Qed.

Lemma register_plugin_registries classes fuel : ∀ P a p a',
  register_plugin classes fuel P a = Ok (p, a') → registries_untouched a a'.
Proof.
  induction fuel as [|fuel IH]; simpl; intros P a p a' H; [discriminate|].
  destruct (find_plugin P a) as [existing|].
  - injection H as <- <-. reflexivity.
  - apply bind_Ok in H as (a1 & H1 & H). injection H as <- <-.
    etrans; [|eapply (plugin_requires_preorder registries_untouched); [| |exact H1]].
    + by split.
    + intros elem b q b' Hb. by eapply IH.
    + intros q b b' [= <-]. reflexivity.
Qed.

Lemma advance_registries classes ph fuel : ∀ this a a',
  advance classes ph fuel this a = Ok a' → registries_untouched a a'.
Proof.
  induction fuel as [|fuel IH]; simpl; intros this a a' H; [discriminate|].
  apply bind_Ok in H as (o & Ho & H). apply bind_Ok in H as (a1 & H1 & H).
  apply bind_Ok in H as (s & _ & H). case_decide; [|discriminate].
  injection H as <-.
  case_decide as Hfrom; [|injection H1 as <-; reflexivity].
  apply bind_Ok in H1 as (a2 & H2 & H1). injection H1 as <-.
  etrans; [|etrans; [eapply (plugin_requires_preorder registries_untouched);
                      [| |exact H2]|]].
  - by split.
  - intros elem b q b' Hb. by eapply register_plugin_registries.
  - intros q b b' Hb. by eapply IH.
  - by destruct ph.
Qed.

(** X5: [initialize] moves plugins one step and touches nothing else.  When
    it returns, the states it changed went from [registered] to
    [initialized]; an object that was not alive before is [registered] or
    [initialized]; [running_plugins] and the method and channel registries
    are the same. *)
Theorem initialize_moves_one_step classes fuel this a a' :
  initialize classes fuel this a = Ok a' →
  running_plugins a' = running_plugins a ∧
  (∀ p s, get_state p a = Ok s →
     get_state p a' = Ok s ∨ (s = registered ∧ get_state p a' = Ok initialized)) ∧
  (∀ p s', get_state p a' = Ok s' → get_state p a = Fault →
     s' = registered ∨ s' = initialized) ∧
  registries_untouched a a'.
Proof.
  rewrite initialize_advance. intros H.
  pose proof (advance_moves _ _ _ _ _ _ H) as Hm.
  split; [apply (moves_other _ _ _ Hm)|].
  split; [apply (moves_alive _ _ _ Hm)|].
  split; [|by eapply advance_registries].
  intros p s' Hp Hf.
  destruct (moves_new _ _ _ Hm p s' Hp Hf) as [?|[_ ?]]; [by left|by right].
Qed.

Lemma initialize_moves_one_step_witness :
  running_plugins net_initialized = running_plugins net_registered ∧
  (get_state 1 net_initialized = Ok registered ∨
   get_state 1 net_initialized = Ok initialized) ∧
  registries_untouched net_registered net_initialized.
Proof.
  destruct (initialize_moves_one_step net_config 3 0 net_registered
              net_initialized) as (H1 & H2 & _ & H3); [by vm_compute|].
  split; [exact H1|]. split; [|exact H3].
  destruct (H2 1 registered) as [H|[_ H]]; [by vm_compute|by left|by right].
Defined.

(** X6: [startup] moves plugins one step and touches nothing else.  When it
    returns, the states it changed went from [initialized] to [started]; an
    object that was not alive before is [registered]; [initialized_plugins]
    and the method and channel registries are the same. *)
Theorem startup_moves_one_step classes fuel this a a' :
  startup classes fuel this a = Ok a' →
  initialized_plugins a' = initialized_plugins a ∧
  (∀ p s, get_state p a = Ok s →
     get_state p a' = Ok s ∨ (s = initialized ∧ get_state p a' = Ok started)) ∧
  (∀ p s', get_state p a' = Ok s' → get_state p a = Fault → s' = registered) ∧
  registries_untouched a a'.
Proof.
  rewrite startup_advance. intros H.
  pose proof (advance_moves _ _ _ _ _ _ H) as Hm.
  split; [apply (moves_other _ _ _ Hm)|].
  split; [apply (moves_alive _ _ _ Hm)|].
  split; [|by eapply advance_registries].
  intros p s' Hp Hf.
  by destruct (moves_new _ _ _ Hm p s' Hp Hf) as [?|[? _]].
Qed.

Lemma startup_moves_one_step_witness :
  ∃ a', startup net_config 3 0 net_initialized = Ok a' ∧
        initialized_plugins a' = initialized_plugins net_initialized ∧
        (get_state 1 a' = Ok initialized ∨ get_state 1 a' = Ok started) ∧
        registries_untouched net_initialized a'.
Proof.
  exists (the net_initialized (startup net_config 3 0 net_initialized)).
  assert (H : startup net_config 3 0 net_initialized
              = Ok (the net_initialized (startup net_config 3 0 net_initialized)))
    by (by vm_compute).
  destruct (startup_moves_one_step net_config 3 0 net_initialized _ H)
    as (H1 & H2 & _ & H3).
  split; [exact H|]. split; [exact H1|]. split; [|exact H3].
  destruct (H2 1 initialized) as [H'|[_ H']]; [by vm_compute|by left|by right].
Defined.

(** ** States never go back *)

Lemma forward_refl a : forward a a.
Proof. intros p s Hp. eauto. Qed.

Lemma forward_trans a b c : forward a b → forward b c → forward a c.
Proof.
  intros Hab Hbc p s Hp. destruct (Hab p s Hp) as (s1 & H1 & L1).
  destruct (Hbc p s1 H1) as (s2 & H2 & L2). exists s2. split; [done|lia].
Qed.

Lemma moves_forward ph a a' : moves ph a a' → forward a a'.
Proof.
  intros Hm p s Hp. destruct (moves_alive _ _ _ Hm p s Hp) as [H|[-> H]].
  - eauto.
  - eexists. split; [exact H|]. destruct ph; simpl; lia.
Qed.

Lemma get_state_log p e a : get_state p (log e a) = get_state p a.
Proof. done. Qed.

Lemma shutdown_forward this a a' : shutdown this a = Ok a' → forward a a'.
Proof.
  unfold shutdown. intros H. apply bind_Ok in H as (o & Ho & H).
  case_decide as Hst; injection H as <-; [|apply forward_refl].
  intros p s Hp. rewrite get_state_log.
  destruct (decide (p = this)) as [->|Hne].
  - exists stopped. split; [by eapply get_state_set_state_eq|].
    destruct s; simpl; lia.
  - exists s. split; [|done]. by rewrite get_state_set_state_ne.
Qed.

Lemma call_forward classes a a' : call classes a a' → forward a a'.
Proof.
  intros [fuel P b p b' H|fuel this b b' H|fuel this b b' H|this b b' H|D b|D b].
  - intros q s Hq. exists s. split; [|done].
    exact (register_plugin_keeps _ s _ _ _ _ _ H q Hq).
  - rewrite initialize_advance in H. eapply moves_forward. by eapply advance_moves.
  - rewrite startup_advance in H. eapply moves_forward. by eapply advance_moves.
  - by eapply shutdown_forward.
  - intros q s Hq. exists s. split; [|done].
    unfold get_method. by destruct (methods b !! decl_id D).
  - intros q s Hq. exists s. split; [|done].
    unfold get_channel. by destruct (channels b !! decl_id D).
Qed.

(** X7: states never go back.  Over any sequence of calls of
    [register_plugin], [initialize], [startup], [shutdown], [get_method] and
    [get_channel] that returned, a plugin that was alive is still alive and
    its state is at the same place of [enum state] or further; in
    particular a [stopped] plugin stays [stopped]. *)
Theorem states_never_go_back classes a a' :
  rtc (call classes) a a' →
  forward a a' ∧
  (∀ p, get_state p a = Ok stopped → get_state p a' = Ok stopped).
Proof.
  intros Hrtc.
  assert (Hf : forward a a').
  { induction Hrtc as [|x y z Hxy _ IH]; [apply forward_refl|].
    eapply forward_trans; [by eapply call_forward|done]. }
  split; [done|]. intros p Hp. destruct (Hf p stopped Hp) as (s' & Hs' & Hl).
  destruct s'; simpl in Hl; try lia. done.
Qed.

Lemma states_never_go_back_witness :
  ∃ a', rtc (call net_config) net_registered a' ∧
        forward net_registered a' ∧
        (get_state 0 net_stopped = Ok stopped → get_state 0 a' = Ok stopped).
Proof.
  assert (∃ a', rtc (call net_config) net_registered a' ∧
                rtc (call net_config) net_stopped a') as (a' & Hr & Hs).
  { eexists. split.
    - eapply rtc_l; [eapply (call_initialize net_config 3 0); vm_compute; reflexivity|].
      eapply rtc_l; [eapply (call_startup net_config 3 1); vm_compute; reflexivity|].
      eapply rtc_l; [eapply (call_startup net_config 3 0); vm_compute; reflexivity|].
      eapply rtc_l; [eapply (call_shutdown net_config 0); vm_compute; reflexivity|].
      eapply rtc_l; [eapply (call_shutdown net_config 1); vm_compute; reflexivity|].
      apply rtc_refl.
    - eapply rtc_l; [eapply (call_shutdown net_config 0); vm_compute; reflexivity|].
      vm_compute. apply rtc_refl. }
  exists a'. split; [exact Hr|].
  destruct (states_never_go_back net_config net_registered a' Hr) as [Hf _].
  destruct (states_never_go_back net_config net_stopped a' Hs) as [_ Hst].
  split; [exact Hf|apply Hst].
Defined.

(** ** The logs are the hooks that ran *)

Lemma hooks_logged_trace a a' :
  initialized_plugins a' = initialized_plugins a →
  running_plugins a' = running_plugins a →
  (∃ es, trace a' = trace a ++ es ∧
         initialize_hooks es = [] ∧ startup_hooks es = []) →
  hooks_logged a → hooks_logged a'.
Proof.
  intros Hi Hr (es & Htr & E1 & E2) [H1 H2]. unfold hooks_logged.
  rewrite Htr, Hi, Hr. unfold initialize_hooks, startup_hooks in *.
  rewrite !omap_app, E1, E2, !app_nil_r. done.
Qed.

Lemma is_New_no_hooks news :
  Forall is_New news → initialize_hooks news = [] ∧ startup_hooks news = [].
Proof.
  induction 1 as [|e news He _ [IH1 IH2]]; [done|].
  destruct e; simpl in He; done.
Qed.

Lemma hooks_logged_set_state this s a :
  hooks_logged a → hooks_logged (set_state this s a).
Proof.
  apply hooks_logged_trace; [done|done|]. by exists [SetState this s].
Qed.

Lemma hooks_logged_notify ph this a :
  hooks_logged a →
  hooks_logged (phase_notify ph this (log (phase_hook ph this) a)).
Proof.
  intros [H1 H2]. unfold hooks_logged, initialize_hooks, startup_hooks in *.
  destruct ph; simpl; rewrite !omap_app; simpl; rewrite ?app_nil_r;
    by rewrite H1, H2.
Qed.

Lemma register_plugin_hooks_logged classes fuel P a p a' :
  register_plugin classes fuel P a = Ok (p, a') → hooks_logged a → hooks_logged a'.
Proof.
  intros H. pose proof (register_plugin_only_registers _ _ _ _ _ _ H) as Hor.
  apply hooks_logged_trace;
    [apply (or_initialized _ _ Hor) | apply (or_running _ _ Hor) |].
  destruct (or_trace _ _ Hor) as (news & Htr & Hnew).
  exists news. split; [done|]. by apply is_New_no_hooks.
Qed.

Lemma advance_hooks_logged classes ph fuel : ∀ this a a',
  advance classes ph fuel this a = Ok a' → hooks_logged a → hooks_logged a'.
Proof.
  induction fuel as [|fuel IH]; simpl; intros this a a' H; [discriminate|].
  apply bind_Ok in H as (o & Ho & H). apply bind_Ok in H as (a1 & H1 & H).
  apply bind_Ok in H as (s & _ & H). case_decide; [|discriminate].
  injection H as <-.
  case_decide; [|by injection H1 as <-].
  apply bind_Ok in H1 as (a2 & H2 & H1). injection H1 as <-. intros Hl.
  apply hooks_logged_notify.
  eapply (plugin_requires_preorder (preserves hooks_logged)); [| |exact H2|].
  - intros elem b q b' Hb Hlb. by eapply register_plugin_hooks_logged.
  - intros q b b' Hb Hlb. by eapply IH.
  - by apply hooks_logged_set_state.
Qed.

Lemma call_hooks_logged classes a a' :
  call classes a a' → hooks_logged a → hooks_logged a'.
Proof.
  intros [fuel P b p b' H|fuel this b b' H|fuel this b b' H|this b b' H|D b|D b].
  - by eapply register_plugin_hooks_logged.
  - rewrite initialize_advance in H. by eapply advance_hooks_logged.
  - rewrite startup_advance in H. by eapply advance_hooks_logged.
  - unfold shutdown in H. apply bind_Ok in H as (o & _ & H).
    case_decide; injection H as <-; [|done].
    apply hooks_logged_trace; [done|done|].
    exists [SetState this stopped; PluginShutdown this]. split; [|done].
    simpl. by rewrite <- app_assoc.
  - unfold get_method. by destruct (methods b !! decl_id D).
  - unfold get_channel. by destruct (channels b !! decl_id D).
Qed.

(** X8: in every application a program can reach, [initialized_plugins] is
    the list of the plugins whose [plugin_initialize] hook ran, in the order
    the hooks ran, and [running_plugins] is that list for [plugin_startup]:
    a plugin is logged exactly when its hook has run. *)
Theorem logs_are_hooks classes a :
  reachable classes a →
  initialize_hooks (trace a) = initialized_plugins a ∧
  startup_hooks (trace a) = running_plugins a.
Proof.
  intros (io & Hrtc). change (hooks_logged a).
  revert a Hrtc. apply (rtc_ind_r (λ a, hooks_logged a)); [done|].
  intros b c _ Hbc IH. by eapply call_hooks_logged.
Qed.

Lemma net_started_reachable : reachable net_config net_started.
Proof.
  exists 0.
  eapply rtc_l; [eapply (call_register_plugin net_config 3 "Net"); vm_compute; reflexivity|].
  eapply rtc_l; [eapply (call_initialize net_config 3 0); vm_compute; reflexivity|].
  eapply rtc_l; [eapply (call_startup net_config 3 1); vm_compute; reflexivity|].
  eapply rtc_l; [eapply (call_startup net_config 3 0); vm_compute; reflexivity|].
  vm_compute. apply rtc_refl.
Defined.

Lemma logs_are_hooks_witness :
  initialize_hooks (trace net_started) = [1; 0] ∧
  startup_hooks (trace net_started) = [1; 0].
Proof.
  destruct (logs_are_hooks net_config net_started net_started_reachable)
    as [H1 H2].
  split; [rewrite H1|rewrite H2]; by vm_compute.
Defined.

(** ** The declaration-keyed registries in reachable applications *)

Lemma registries_untouched_ok a a' :
  registries_untouched a a' → registries_ok a → registries_ok a'.
Proof.
  intros [E1 E2 E3 E4 E5]. unfold registries_ok, channels_share_io.
  by rewrite E1, E2, E3, E4, E5.
Qed.

Lemma shutdown_registries this a a' :
  shutdown this a = Ok a' → registries_untouched a a'.
Proof.
  unfold shutdown. intros H. apply bind_Ok in H as (o & _ & H).
  case_decide; injection H as <-; by split.
Qed.

Lemma get_method_registries_ok D a :
  registries_ok a → registries_ok (get_method D a).2.
Proof.
  intros (Hm & Hc & Sm & Sc & Hio).
  destruct (get_method D a) as [m a'] eqn:E.
  destruct (get_method_post _ _ _ _ Hm E) as (Hm' & _ & _). simpl.
  unfold get_method in E.
  destruct (methods a !! decl_id D) as [itr|] eqn:HD; injection E as <- <-.
  - done.
  - split; [done|]. split; [done|]. split; [|done]. simpl.
    rewrite !map_size_insert_None; [by rewrite Sm|done|].
    apply not_elem_of_dom. apply is_fresh.
Qed.

Lemma get_channel_registries_ok D a :
  registries_ok a → registries_ok (get_channel D a).2.
Proof.
  intros (Hm & Hc & Sm & Sc & Hio).
  destruct (get_channel D a) as [c a'] eqn:E.
  destruct (get_channel_post _ _ _ _ Hc E) as (Hc' & _ & _). simpl.
  unfold get_channel in E.
  destruct (channels a !! decl_id D) as [itr|] eqn:HD; injection E as <- <-.
  - done.
  - split; [done|]. split; [done|]. split; [done|]. split; simpl.
    + rewrite !map_size_insert_None; [by rewrite Sc|done|].
      apply not_elem_of_dom. apply is_fresh.
    + unfold channels_share_io. simpl. apply map_Forall_insert_2; done.
Qed.

Lemma call_registries_ok classes a a' :
  call classes a a' → registries_ok a → registries_ok a'.
Proof.
  intros [fuel P b p b' H|fuel this b b' H|fuel this b b' H|this b b' H|D b|D b].
  - apply registries_untouched_ok. by eapply register_plugin_registries.
  - rewrite initialize_advance in H. apply registries_untouched_ok.
    by eapply advance_registries.
  - rewrite startup_advance in H. apply registries_untouched_ok.
    by eapply advance_registries.
  - apply registries_untouched_ok. by eapply shutdown_registries.
  - apply get_method_registries_ok.
  - apply get_channel_registries_ok.
Qed.

(** X9: in every application a program can reach, the method registry and
    the channel registry point to live objects, no two declaration tokens
    share an object, there are exactly as many objects as tokens (an object is
    made on the first lookup of its token and at no other time), and every
    channel holds the io_service of the application. *)
Theorem reachable_registries classes a :
  reachable classes a →
  registry_ok (methods a) (dom (method_store a)) ∧
  registry_ok (channels a) (dom (channel_store a)) ∧
  size (method_store a) = size (methods a) ∧
  size (channel_store a) = size (channels a) ∧
  (∀ c ch, channel_store a !! c = Some ch → channel_io ch = get_io_service a).
Proof.
  intros (io & Hrtc). change (registries_ok a).
  revert a Hrtc. apply (rtc_ind_r (λ a, registries_ok a)).
  - split; [apply registry_ok_empty|]. split; [apply registry_ok_empty|].
    split; [done|]. split; [done|]. apply map_Forall_empty.
  - intros b c _ Hbc IH. by eapply call_registries_ok.
Qed.

Lemma reachable_registries_witness :
  ∃ a, reachable net_config a ∧
       size (channel_store a) = 2 ∧ size (channels a) = 2 ∧
       registry_ok (channels a) (dom (channel_store a)).
Proof.
  set (a := (get_channel (Decl "pong" "int")
               (get_channel (Decl "ping" "int")
                  (get_channel (Decl "pong" "int") net_started).2).2).2).
  assert (Hr : reachable net_config a).
  { destruct net_started_reachable as (io & Hrtc). exists io.
    eapply rtc_r; [eapply rtc_r; [eapply rtc_r; [exact Hrtc|]|]|];
      apply call_get_channel. }
  destruct (reachable_registries net_config a Hr) as (_ & Hc & _ & Hs & _).
  exists a. split; [exact Hr|]. split; [by vm_compute|].
  split; [rewrite <- Hs; by vm_compute|exact Hc].
Defined.

(** ** Exact logs and ready requirements, in every reachable application *)

Lemma phase_other_involutive ph : phase_other (phase_other ph) = ph.
Proof. by destruct ph. Qed.

Lemma name_Some p a n :
  name p a = Ok n ↔ ∃ s, plugin_store a !! p = Some (Plugin s n).
Proof.
  unfold name, deref. destruct (plugin_store a !! p) as [[s' n']|]; simpl.
  - split; [intros [= <-]; eauto | intros (s & [= <- <-]); done].
  - split; [discriminate | intros (? & ?); discriminate].
Qed.

Lemma name_grows a a' p n : grows a a' → name p a = Ok n → name p a' = Ok n.
Proof.
  intros Hg (s & Hp)%name_Some.
  destruct (grows_store _ _ Hg p _ Hp) as ([s' n'] & Hp' & Hn). simpl in Hn.
  subst n'. apply name_Some. eauto.
Qed.

Lemma name_grows_back a a' p n s :
  grows a a' → get_state p a = Ok s → name p a' = Ok n → name p a = Ok n.
Proof.
  intros Hg (m & Hp)%get_state_Some Hn.
  assert (Hm : name p a = Ok m) by (apply name_Some; eauto).
  pose proof (name_grows a a' p m Hg Hm) as Hm'.
  rewrite Hn in Hm'. by injection Hm' as ->.
Qed.

(** A transition of the other phase, and a registration, leave [at_least]
    as it was. *)
Lemma at_least_frame ph a a' p :
  moves (phase_other ph) a a' → at_least ph a' p ↔ at_least ph a p.
Proof.
  intros Hm. split.
  - intros (s' & Hs' & Hl). destruct (get_state_cases p a) as [Hf|(s & Hs)].
    + destruct (moves_new _ _ _ Hm p s' Hs' Hf) as [->|[Hfr ->]];
        destruct ph; simpl in *; try lia; done.
    + exists s. split; [done|].
      destruct (moves_alive _ _ _ Hm p s Hs) as [H|[-> H]];
        rewrite Hs' in H; injection H as ->; [done|].
      destruct ph; simpl in *; lia.
  - intros (s & Hs & Hl).
    destruct (moves_alive _ _ _ Hm p s Hs) as [H|[-> H]].
    + by exists s.
    + eexists. split; [exact H|]. destruct ph; simpl in *; lia.
Qed.

Lemma tidy_frame classes ph busy a a' :
  moves (phase_other ph) a a' → grows a a' →
  Tidy classes ph busy a → Tidy classes ph busy a'.
Proof.
  intros Hm Hg HT.
  pose proof (moves_other _ _ _ Hm) as Ho. rewrite phase_other_involutive in Ho.
  split; rewrite ?Ho.
  - apply (td_nodup _ _ _ _ HT).
  - intros p Hp. apply (at_least_frame _ _ _ _ Hm). by apply (td_in _ _ _ _ HT).
  - intros p Hp%(at_least_frame _ _ _ _ Hm). by apply (td_done _ _ _ _ HT).
  - intros p Hp. destruct (td_busy _ _ _ _ HT p Hp) as [H1 H2].
    split; [by apply (at_least_frame _ _ _ _ Hm)|done].
  - intros p n d Hp%(at_least_frame _ _ _ _ Hm) Hb Hn Hd.
    pose proof Hp as (s & Hs & _).
    pose proof (name_grows_back _ _ _ _ _ Hg Hs Hn) as Hn0.
    destruct (td_ready _ _ _ _ HT p n d Hp Hb Hn0 Hd) as (pd & Hpd & Hat).
    exists pd. split; [|by apply (at_least_frame _ _ _ _ Hm)].
    unfold find_plugin in *. by eapply lookup_weaken, (grows_plugins _ _ Hg).
Qed.

Lemma register_plugin_tidy classes ph busy fuel P a p a' :
  register_plugin classes fuel P a = Ok (p, a') →
  Tidy classes ph busy a → Tidy classes ph busy a'.
Proof.
  intros H. apply tidy_frame.
  - apply only_registers_moves. by eapply register_plugin_only_registers.
  - by apply register_plugin_grows in H as [? _].
Qed.

Lemma at_least_set_state ph this a p :
  get_state this a = Ok (phase_from ph) →
  at_least ph (set_state this (phase_to ph) a) p ↔ at_least ph a p ∨ p = this.
Proof.
  intros Hthis. destruct (decide (p = this)) as [->|Hne].
  - split; [by right|]. intros _. exists (phase_to ph).
    split; [by eapply get_state_set_state_eq|done].
  - unfold at_least. rewrite get_state_set_state_ne by done. tauto.
Qed.

Lemma not_at_least_from ph this a :
  get_state this a = Ok (phase_from ph) → ¬ at_least ph a this.
Proof.
  intros Hthis (s & Hs & Hl). rewrite Hthis in Hs. injection Hs as <-.
  destruct ph; simpl in Hl; lia.
Qed.

Lemma tidy_set_state classes ph busy this a :
  get_state this a = Ok (phase_from ph) →
  Tidy classes ph busy a →
  Tidy classes ph (busy ∪ {[this]}) (set_state this (phase_to ph) a).
Proof.
  intros Hthis HT. pose proof (not_at_least_from _ _ _ Hthis) as Hnot.
  assert (Hout : this ∉ phase_order ph a).
  { intros Hin. by apply Hnot, (td_in _ _ _ _ HT). }
  split; rewrite ?phase_order_set_state.
  - apply (td_nodup _ _ _ _ HT).
  - intros p Hp. apply at_least_set_state; [done|]. left.
    by apply (td_in _ _ _ _ HT).
  - intros p Hp. rewrite elem_of_union, elem_of_singleton.
    apply at_least_set_state in Hp as [Hp|Hp]; [|tauto|done].
    destruct (td_done _ _ _ _ HT p Hp); tauto.
  - intros p [Hp|Hp]%elem_of_union.
    + destruct (td_busy _ _ _ _ HT p Hp) as [H1 H2].
      split; [|done]. apply at_least_set_state; [done|by left].
    + apply elem_of_singleton in Hp as ->.
      split; [|done]. apply at_least_set_state; [done|by right].
  - intros p n d Hp Hb Hn Hd.
    rewrite elem_of_union, elem_of_singleton in Hb.
    assert (p ≠ this) as Hne by tauto.
    apply at_least_set_state in Hp as [Hp|?]; [|done|done].
    assert (Hn0 : name p a = Ok n).
    { apply name_Some in Hn as (s & Hs). rewrite store_set_state_ne in Hs by done.
      apply name_Some. eauto. }
    destruct (td_ready _ _ _ _ HT p n d Hp) as (pd & Hpd & Hat);
      [tauto|done|done|].
    exists pd. split; [done|]. apply at_least_set_state; [done|by left].
Qed.

Lemma tidy_notify classes ph busy this n e a :
  Tidy classes ph (busy ∪ {[this]}) a →
  this ∉ busy → name this a = Ok n →
  (∀ d, d ∈ requires_of classes n →
     ∃ pd, find_plugin d a = Some pd ∧ get_state pd a = Ok (phase_to ph)) →
  Tidy classes ph busy (phase_notify ph this (log e a)).
Proof.
  intros HT Hnb Hn Hdeps.
  assert (Hin : ∀ p, p ∈ busy ∪ {[this]} ↔ p ∈ busy ∨ p = this).
  { intros p. by rewrite elem_of_union, elem_of_singleton. }
  destruct (td_busy _ _ _ _ HT this) as [Hat Hout]; [apply Hin; by right|].
  assert (Hsame : ∀ p, at_least ph (phase_notify ph this (log e a)) p ↔ at_least ph a p).
  { intros p. unfold at_least. by rewrite get_state_notify. }
  split; rewrite ?phase_order_notify.
  - apply NoDup_app. split; [apply (td_nodup _ _ _ _ HT)|].
    split; [|apply NoDup_singleton].
    intros p Hp Hq. apply list_elem_of_singleton in Hq as ->. done.
  - intros p [Hp|Hp]%elem_of_app; apply Hsame.
    + by apply (td_in _ _ _ _ HT).
    + by apply list_elem_of_singleton in Hp as ->.
  - intros p Hp%Hsame. rewrite elem_of_app, list_elem_of_singleton.
    destruct (td_done _ _ _ _ HT p Hp) as [?|Hb]; [tauto|].
    apply Hin in Hb. tauto.
  - intros p Hp. destruct (td_busy _ _ _ _ HT p) as [H1 H2]; [apply Hin; by left|].
    split; [by apply Hsame|]. rewrite elem_of_app, list_elem_of_singleton.
    intros [? | ->]; done.
  - intros p m d Hp%Hsame Hb Hm Hd.
    assert (Hm0 : name p a = Ok m) by (by destruct ph).
    assert (Hfind : ∀ q, find_plugin q (phase_notify ph this (log e a))
                         = find_plugin q a) by (by destruct ph).
    destruct (decide (p = this)) as [->|Hne].
    + rewrite Hn in Hm0. injection Hm0 as <-.
      destruct (Hdeps d Hd) as (pd & Hpd & Hst). exists pd.
      split; [by rewrite Hfind|]. apply Hsame. by exists (phase_to ph).
    + destruct (td_ready _ _ _ _ HT p m d Hp) as (pd & Hpd & Hatd);
        [rewrite Hin; tauto|done|done|].
      exists pd. split; [by rewrite Hfind|by apply Hsame].
Qed.

Lemma advance_tidy classes ph fuel : ∀ this a a' busy,
  advance classes ph fuel this a = Ok a' →
  Tidy classes ph busy a → Tidy classes ph busy a'.
Proof.
  induction fuel as [|fuel IH]; simpl; intros this a a' busy H; [discriminate|].
  apply bind_Ok in H as (o & Ho & H). apply bind_Ok in H as (a1 & H1 & H).
  apply bind_Ok in H as (s & _ & H). case_decide; [|discriminate].
  injection H as <-.
  case_decide as Hfrom; [|by injection H1 as <-].
  apply bind_Ok in H1 as (a2 & H2 & H1). injection H1 as <-. intros HT.
  assert (Hthis : get_state this a = Ok (phase_from ph)).
  { unfold get_state. rewrite Ho. simpl. by rewrite Hfrom. }
  assert (Hname : name this a = Ok (_name o)).
  { unfold name. by rewrite Ho. }
  assert (Hg : grows a a2).
  { etrans; [apply grows_set_state|].
    eapply (plugin_requires_preorder grows); [| |exact H2].
    - intros e b q b' Hb. by apply register_plugin_grows in Hb as [? _].
    - intros q b b' Hb. by eapply advance_grows. }
  eapply tidy_notify.
  - eapply (plugin_requires_preorder
              (preserves (Tidy classes ph (busy ∪ {[this]})))); [| |exact H2|].
    + intros e b q b' Hb HTb. by eapply register_plugin_tidy.
    + intros q b b' Hb HTb. by eapply IH.
    + by apply tidy_set_state.
  - intros Hb. apply (not_at_least_from _ _ _ Hthis).
    by apply (td_busy _ _ _ _ HT).
  - by eapply name_grows.
  - intros d Hd. by eapply plugin_requires_advance_all.
Qed.

Lemma advance_tidy_other classes ph fuel this a a' busy :
  advance classes ph fuel this a = Ok a' →
  Tidy classes (phase_other ph) busy a → Tidy classes (phase_other ph) busy a'.
Proof.
  intros H. apply tidy_frame.
  - rewrite phase_other_involutive. by eapply advance_moves.
  - by eapply advance_grows.
Qed.

Lemma tidy_same classes ph busy a a' :
  (∀ p, at_least ph a' p ↔ at_least ph a p) →
  phase_order ph a' = phase_order ph a →
  (∀ p, name p a' = name p a) →
  (∀ q, find_plugin q a' = find_plugin q a) →
  Tidy classes ph busy a → Tidy classes ph busy a'.
Proof.
  intros Hat Ho Hn Hf HT. split; rewrite ?Ho.
  - apply (td_nodup _ _ _ _ HT).
  - intros p Hp. apply Hat. by apply (td_in _ _ _ _ HT).
  - intros p Hp%Hat. by apply (td_done _ _ _ _ HT).
  - intros p Hp. destruct (td_busy _ _ _ _ HT p Hp). split; [by apply Hat|done].
  - intros p n d Hp%Hat Hb Hpn Hd. rewrite Hn in Hpn.
    destruct (td_ready _ _ _ _ HT p n d Hp Hb Hpn Hd) as (pd & Hpd & Hatd).
    exists pd. split; [by rewrite Hf|by apply Hat].
Qed.

Lemma shutdown_tidy classes ph this a a' :
  shutdown this a = Ok a' → Tidy classes ph ∅ a → Tidy classes ph ∅ a'.
Proof.
  unfold shutdown. intros H. apply bind_Ok in H as (o & Ho & H).
  case_decide as Hst; injection H as <-; [|done].
  assert (Hthis : get_state this a = Ok started).
  { unfold get_state. rewrite Ho. simpl. by rewrite Hst. }
  apply tidy_same.
  - intros p. unfold at_least. rewrite get_state_log.
    destruct (decide (p = this)) as [->|Hne].
    + rewrite (get_state_set_state_eq _ _ _ _ Hthis), Hthis.
      split; intros (s & [= <-] & Hl); eexists; (split; [done|]);
        destruct ph; simpl in *; lia.
    + by rewrite get_state_set_state_ne.
  - by destruct ph.
  - intros p. unfold name, deref. simpl.
    destruct (decide (p = this)) as [->|Hne].
    + rewrite lookup_alter_eq. by destruct (plugin_store a !! this).
    + by rewrite lookup_alter_ne.
  - done.
Qed.

Lemma register_plugin_closed classes fuel : ∀ P a p a' busy,
  register_plugin classes fuel P a = Ok (p, a') →
  closed classes busy a → closed classes busy a'.
Proof.
  induction fuel as [|fuel IH]; simpl; intros P a p a' busy H; [discriminate|].
  unfold find_plugin in H. destruct (plugins a !! P) as [existing|] eqn:HP.
  - by injection H as <- <-.
  - apply bind_Ok in H as (a1 & H1 & H). injection H as <- <-. intros Hc.
    assert (Hc1 : closed classes (busy ∪ {[P]}) a1).
    { eapply (plugin_requires_preorder
                (preserves (closed classes (busy ∪ {[P]})))); [| |exact H1|].
      - intros e b q b' Hb Hcb. by eapply IH.
      - intros q b b' [= <-] Hcb. exact Hcb.
      - by apply closed_new. }
    intros n q d Hn HnS Hd. destruct (decide (n = P)) as [->|Hne].
    + by eapply plugin_requires_registers.
    + apply (Hc1 n q d Hn); [|done].
      rewrite elem_of_union, elem_of_singleton. tauto.
Qed.

Lemma advance_closed classes ph fuel : ∀ this a a',
  advance classes ph fuel this a = Ok a' →
  closed classes ∅ a → closed classes ∅ a'.
Proof.
  induction fuel as [|fuel IH]; simpl; intros this a a' H; [discriminate|].
  apply bind_Ok in H as (o & Ho & H). apply bind_Ok in H as (a1 & H1 & H).
  apply bind_Ok in H as (s & _ & H). case_decide; [|discriminate].
  injection H as <-.
  case_decide; [|by injection H1 as <-].
  apply bind_Ok in H1 as (a2 & H2 & H1). injection H1 as <-. intros Hc.
  assert (Hc2 : closed classes ∅ a2).
  { eapply (plugin_requires_preorder (preserves (closed classes ∅)));
      [| |exact H2|done].
    - intros e b q b' Hb Hcb. by eapply register_plugin_closed.
    - intros q b b' Hb Hcb. by eapply IH. }
  intros n q d. rewrite plugins_notify. apply Hc2.
Qed.

Lemma tidy_plugin_fields classes a a' :
  plugins a' = plugins a → plugin_store a' = plugin_store a →
  initialized_plugins a' = initialized_plugins a →
  running_plugins a' = running_plugins a →
  sound a ∧ closed classes ∅ a ∧ Tidy classes Init ∅ a ∧ Tidy classes Start ∅ a →
  sound a' ∧ closed classes ∅ a' ∧ Tidy classes Init ∅ a' ∧ Tidy classes Start ∅ a'.
Proof.
  intros Hp Hs Hi Hr (H1 & H2 & H3 & H4).
  assert (Hsame : ∀ ph, Tidy classes ph ∅ a → Tidy classes ph ∅ a').
  { intros ph. apply tidy_same.
    - intros p. unfold at_least, get_state, deref. by rewrite Hs.
    - by destruct ph.
    - intros p. unfold name, deref. by rewrite Hs.
    - intros q. unfold find_plugin. by rewrite Hp. }
  split; [|split; [|split; by apply Hsame]].
  - unfold sound, store_registered. rewrite Hp, Hs. exact H1.
  - unfold closed. rewrite Hp. exact H2.
Qed.

(** The invariant of the applications a program can reach. *)
Lemma call_tidy classes a a' :
  call classes a a' →
  sound a ∧ closed classes ∅ a ∧ Tidy classes Init ∅ a ∧ Tidy classes Start ∅ a →
  sound a' ∧ closed classes ∅ a' ∧ Tidy classes Init ∅ a' ∧ Tidy classes Start ∅ a'.
Proof.
  intros [fuel P b p b' H|fuel this b b' H|fuel this b b' H|this b b' H|D b|D b]
    (Hs & Hc & Hi & Hst).
  - split; [by eapply register_plugin_sound|].
    split; [by eapply register_plugin_closed|].
    split; by eapply register_plugin_tidy.
  - rewrite initialize_advance in H.
    split; [by eapply advance_sound|]. split; [by eapply advance_closed|].
    split; [by eapply advance_tidy|].
    by apply (advance_tidy_other classes Init fuel this b b' ∅ H).
  - rewrite startup_advance in H.
    split; [by eapply advance_sound|]. split; [by eapply advance_closed|].
    split; [|by eapply advance_tidy].
    by apply (advance_tidy_other classes Start fuel this b b' ∅ H).
  - split; [by eapply shutdown_sound|].
    split; [|split; by eapply shutdown_tidy].
    unfold shutdown in H. apply bind_Ok in H as (o & _ & H).
    by case_decide; injection H as <-.
  - apply (tidy_plugin_fields classes b); [..|done];
      unfold get_method; by destruct (methods b !! decl_id D).
  - apply (tidy_plugin_fields classes b); [..|done];
      unfold get_channel; by destruct (channels b !! decl_id D).
Qed.

Lemma reachable_tidy classes a :
  reachable classes a →
  sound a ∧ closed classes ∅ a ∧ Tidy classes Init ∅ a ∧ Tidy classes Start ∅ a.
Proof.
  intros (io & Hrtc). revert a Hrtc.
  apply (rtc_ind_r (λ a, sound a ∧ closed classes ∅ a ∧
                         Tidy classes Init ∅ a ∧ Tidy classes Start ∅ a)).
  - assert (Hno : ∀ ph p, ¬ at_least ph (application_new io) p).
    { intros ph p (s & Hs & _). by vm_compute in Hs. }
    split; [split; apply map_Forall_empty|].
    split; [intros n p d Hn; simpl in Hn; by rewrite lookup_empty in Hn|].
    split; (split; [destruct_and?; simpl; try apply NoDup_nil_2 ..]).
    all: try (intros p Hp; by apply elem_of_nil in Hp).
    all: try (intros p Hp; by apply Hno in Hp).
    all: try (intros p Hp; by apply elem_of_empty in Hp).
    all: intros p n d Hp; by apply Hno in Hp.
  - intros b c _ Hbc IH. by eapply call_tidy.
Qed.

Lemma at_least_Init a p :
  at_least Init a p ↔ ∃ s, get_state p a = Ok s ∧ s ≠ registered.
Proof.
  split; intros (s & Hs & H); exists s; (split; [done|]).
  - intros ->. simpl in H. lia.
  - destruct s; simpl; try lia. done.
Qed.

Lemma at_least_Start a p :
  at_least Start a p ↔ get_state p a = Ok started ∨ get_state p a = Ok stopped.
Proof.
  split.
  - intros (s & Hs & H). destruct s; simpl in H; try lia; tauto.
  - intros [H|H]; eexists; (split; [exact H|]); simpl; lia.
Qed.

(** X10: in every application a program can reach, each log is exact.
    [initialized_plugins] holds, once each, exactly the plugins that have
    left the state [registered]; [running_plugins] holds, once each, exactly
    the plugins that are [started] or [stopped]. *)
Theorem logs_are_exact classes a :
  reachable classes a →
  NoDup (initialized_plugins a) ∧ NoDup (running_plugins a) ∧
  (∀ p, p ∈ initialized_plugins a ↔ ∃ s, get_state p a = Ok s ∧ s ≠ registered) ∧
  (∀ p, p ∈ running_plugins a ↔
        get_state p a = Ok started ∨ get_state p a = Ok stopped).
Proof.
  intros (_ & _ & Hi & Hs)%reachable_tidy.
  split; [apply (td_nodup _ _ _ _ Hi)|]. split; [apply (td_nodup _ _ _ _ Hs)|].
  split; intros p.
  - rewrite <- at_least_Init. split; [apply (td_in _ _ _ _ Hi)|].
    intros Hp. destruct (td_done _ _ _ _ Hi p Hp) as [?|?%elem_of_empty]; done.
  - rewrite <- at_least_Start. split; [apply (td_in _ _ _ _ Hs)|].
    intros Hp. destruct (td_done _ _ _ _ Hs p Hp) as [?|?%elem_of_empty]; done.
Qed.

Lemma logs_are_exact_witness :
  NoDup (running_plugins net_started) ∧
  (0 ∈ running_plugins net_started ↔
   get_state 0 net_started = Ok started ∨ get_state 0 net_started = Ok stopped).
Proof.
  destruct (logs_are_exact net_config net_started net_started_reachable)
    as (_ & H1 & _ & H2).
  split; [exact H1|exact (H2 0)].
Defined.

(** X11: in every application a program can reach, what a plugin requires is
    never behind it.  Every class a live plugin requires is registered; when
    the plugin has left [registered], so has the required plugin; when the
    plugin is [started] or [stopped], the required plugin is [started] or
    [stopped]. *)
Theorem requirements_are_ready classes a p s n d :
  reachable classes a →
  get_state p a = Ok s → name p a = Ok n → d ∈ requires_of classes n →
  ∃ pd sd, find_plugin d a = Some pd ∧ get_state pd a = Ok sd ∧
           (s ≠ registered → sd ≠ registered) ∧
           (s = started ∨ s = stopped → sd = started ∨ sd = stopped).
Proof.
  intros (Hsound & Hc & Hi & Hst)%reachable_tidy Hs Hn Hd.
  apply name_Some in Hn as (s0 & Hp).
  pose proof (proj2 Hsound p _ Hp) as Hreg. simpl in Hreg.
  destruct (Hc n p d Hreg) as (pd & Hpd); [by intros ?%elem_of_empty|done|].
  destruct (sound_lookup a d pd Hsound Hpd) as (sd & Hsd).
  exists pd, sd. split; [done|]. split; [by eapply get_state_store|].
  assert (Hpn : name p a = Ok n) by (apply name_Some; eauto).
  split.
  - intros Hne.
    destruct (td_ready _ _ _ _ Hi p n d) as (pd' & Hpd' & (s' & Hs' & Hl));
      [apply at_least_Init; eauto|by intros ?%elem_of_empty|done|done|].
    unfold find_plugin in Hpd'. rewrite Hpd in Hpd'. injection Hpd' as <-.
    rewrite (get_state_store _ _ _ _ Hsd) in Hs'. injection Hs' as <-.
    intros ->. simpl in Hl. lia.
  - intros Hor.
    destruct (td_ready _ _ _ _ Hst p n d) as (pd' & Hpd' & Hat);
      [apply at_least_Start; destruct Hor as [-> | ->]; tauto
      |by intros ?%elem_of_empty|done|done|].
    unfold find_plugin in Hpd'. rewrite Hpd in Hpd'. injection Hpd' as <-.
    apply at_least_Start in Hat.
    rewrite (get_state_store _ _ _ _ Hsd) in Hat.
    destruct Hat as [[= ->]|[= ->]]; tauto.
Qed.

Lemma requirements_are_ready_witness :
  ∃ pd sd, find_plugin "Config" net_started = Some pd ∧
           get_state pd net_started = Ok sd ∧
           (started ≠ registered → sd ≠ registered) ∧
           (started = started ∨ started = stopped → sd = started ∨ sd = stopped).
Proof.
  apply (requirements_are_ready net_config net_started 0 started "Net" "Config").
  - exact net_started_reachable.
  - by vm_compute.
  - by vm_compute.
  - vm_compute. apply list_elem_of_here.
Defined.

(** ** The transitions return, cyclic tables included *)

Lemma name_set_state this s p a : name p (set_state this s a) = name p a.
Proof.
  unfold name, deref. simpl. destruct (decide (p = this)) as [->|Hne].
  - rewrite lookup_alter_eq. by destruct (plugin_store a !! this).
  - by rewrite lookup_alter_ne.
Qed.

Lemma visitable_set_state ph this a p :
  get_state this a = Ok (phase_from ph) →
  visitable ph (set_state this (phase_to ph) a) p ↔ visitable ph a p.
Proof.
  intros Hthis. unfold visitable. destruct (decide (p = this)) as [->|Hne].
  - rewrite (get_state_set_state_eq _ _ _ _ Hthis), Hthis.
    split; intros _; eexists; (split; [done|]); [by left|by right].
  - by rewrite get_state_set_state_ne.
Qed.

Lemma clear_set_state classes ph this a :
  get_state this a = Ok (phase_from ph) → clear classes ph a →
  clear classes ph (set_state this (phase_to ph) a).
Proof.
  intros Hthis [Hs Hc]. split; [by apply sound_set_state|].
  intros p n d Hp Hn Hd. rewrite name_set_state in Hn.
  apply (visitable_set_state _ _ _ _ Hthis) in Hp.
  destruct (Hc p n d Hp Hn Hd) as (pd & Hpd & Hv).
  exists pd. split; [exact Hpd|]. by apply visitable_set_state.
Qed.

Lemma clear_notify classes ph this e a :
  clear classes ph a → clear classes ph (phase_notify ph this (log e a)).
Proof.
  intros [Hs Hc]. split; [by apply sound_notify|].
  assert (Hv : ∀ q, visitable ph (phase_notify ph this (log e a)) q ↔
                    visitable ph a q).
  { intros q. unfold visitable. by rewrite get_state_notify. }
  intros p n d Hp%Hv Hn Hd.
  assert (Hn' : name p a = Ok n) by (by destruct ph).
  destruct (Hc p n d Hp Hn' Hd) as (pd & Hpd & Hvd).
  exists pd. split; [by destruct ph|]. by apply Hv.
Qed.

Lemma advance_returns classes ph fuel : ∀ this a,
  clear classes ph a → visitable ph a this →
  depth_bound classes ph a < fuel →
  ∃ a', advance classes ph fuel this a = Ok a' ∧ clear classes ph a'.
Proof.
  induction fuel as [|fuel IH]; intros this a Hcl (s & Hs & Hgood) Hsz; [lia|].
  pose proof Hs as (n & Ho)%get_state_Some.
  simpl. unfold deref. rewrite Ho. simpl.
  assert (Hfin : ∀ b, clear classes ph b → get_state this b = Ok (phase_to ph) →
            ∃ a', (s ← get_state this b;
                   if decide (s = phase_to ph) then Ok b else AssertFail b)
                  = Ok a' ∧ clear classes ph a').
  { intros b Hb ->. simpl. rewrite decide_True by done. eauto. }
  case_decide as Hfrom.
  2:{ apply Hfin; [done|]. by destruct Hgood as [-> | ->]. }
  subst s. set (a1 := set_state this (phase_to ph) a).
  assert (Hcl1 : clear classes ph a1) by (by apply clear_set_state).
  assert (Hs1 : get_state this a1 = Ok (phase_to ph))
    by (by eapply get_state_set_state_eq).
  assert (Hn1 : name this a1 = Ok n).
  { unfold a1. rewrite name_set_state. apply name_Some. eauto. }
  unfold requires_of at 1. destruct (classes !! n) as [ds|] eqn:Hds; simpl.
  2:{ apply Hfin; [by apply clear_notify|]. by rewrite get_state_notify. }
  assert (Hsz1 : depth_bound classes ph a1 < fuel).
  { pose proof (pending_set_state classes ph this _ a ds (proj2 (proj1 Hcl))
                  Ho eq_refl Hds). unfold a1. lia. }
  destruct (plugin_requires_total
              (λ b, clear classes ph b ∧ depth_bound classes ph b < fuel ∧
                    get_state this b = Ok (phase_to ph) ∧ name this b = Ok n)
              (register_plugin classes fuel) (advance classes ph fuel) ds)
    with (a := a1) as (a2 & -> & Hcl2 & _ & Hs2 & _); [|done|].
  - intros elem b Helem (Hb & Hszb & Hsb & Hnb).
    destruct (proj2 Hb this n elem) as (pd & Hpd & Hv); [|done| |].
    { exists (phase_to ph). split; [done|by right]. }
    { unfold requires_of. by rewrite Hds. }
    exists pd, b. split.
    { destruct fuel; [lia|]. by apply register_plugin_found. }
    destruct (IH pd b Hb Hv Hszb) as (b2 & Hadv & Hb2).
    exists b2. split; [done|].
    pose proof (advance_grows _ _ _ _ _ _ Hadv) as Hg.
    split; [done|]. split; [|split].
    + pose proof (depth_bound_mono classes ph b b2 (grows_plugins _ _ Hg)) as Hle.
      eapply Nat.le_lt_trans; [|exact Hszb]. apply Hle.
      intros s Hne. by eapply advance_keeps.
    + by eapply (advance_keeps classes ph (phase_to ph) fuel
                   (phase_to_ne_from ph) pd b b2 Hadv).
    + by eapply name_grows.
  - simpl. apply Hfin; [by apply clear_notify|]. by rewrite get_state_notify.
Qed.

Lemma cyclic_registered_reachable : reachable cyclic_pair cyclic_registered.
Proof.
  exists 0.
  eapply rtc_l; [eapply (call_register_plugin cyclic_pair 3 "A"); vm_compute; reflexivity|].
  vm_compute. apply rtc_refl.
Defined.

(** X12: in an application a program can reach, the transitions return
    normally for every table of classes, cyclic ones included, once the call
    depth exceeds twice the number of classes.  [initialize] returns on every
    live plugin as long as no plugin has been started; [startup] returns on
    every plugin that has left [registered] as long as no plugin is
    [stopped]. *)
Theorem lifecycle_returns classes fuel this s a :
  reachable classes a → 2 * size classes < fuel → get_state this a = Ok s →
  (running_plugins a = [] → ∃ a', initialize classes fuel this a = Ok a') ∧
  (s ≠ registered → (∀ q, get_state q a ≠ Ok stopped) →
   ∃ a', startup classes fuel this a = Ok a').
Proof.
  intros (Hsound & Hc & Hi & Hst)%reachable_tidy Hfuel Hs. split.
  - intros Hrun. rewrite initialize_advance.
    assert (Hall : ∀ p t, get_state p a = Ok t → good Init t).
    { intros p t Ht.
      destruct (decide (t = registered)) as [->|H1]; [by left|].
      destruct (decide (t = initialized)) as [->|H2]; [by right|].
      exfalso. destruct (td_done _ _ _ _ Hst p) as [Hin|Hin].
      - apply at_least_Start. destruct t; tauto.
      - simpl in Hin. rewrite Hrun in Hin. by apply elem_of_nil in Hin.
      - by apply elem_of_empty in Hin. }
    destruct (advance_returns classes Init fuel this a) as (a' & H & _);
      [| | |eauto].
    + split; [done|]. intros p n d _ Hn Hd.
      apply name_Some in Hn as (s0 & Hp).
      pose proof (proj2 Hsound p _ Hp) as Hreg. simpl in Hreg.
      destruct (Hc n p d Hreg) as (pd & Hpd);
        [by intros ?%elem_of_empty|done|].
      destruct (sound_lookup a d pd Hsound Hpd) as (sd & Hsd).
      exists pd. split; [done|]. exists sd.
      split; [by eapply get_state_store|]. apply (Hall pd).
      by eapply get_state_store.
    + exists s. split; [done|by apply (Hall this)].
    + pose proof (depth_bound_le classes Init a). lia.
  - intros Hne Hnostop. rewrite startup_advance.
    assert (Hv : ∀ p, at_least Init a p → visitable Start a p).
    { intros p (t & Ht & Hl). exists t. split; [done|].
      destruct t; simpl in Hl; [lia|by left|by right|].
      by apply Hnostop in Ht. }
    destruct (advance_returns classes Start fuel this a) as (a' & H & _);
      [| | |eauto].
    + split; [done|]. intros p n d (t & Ht & Hg) Hn Hd.
      destruct (td_ready _ _ _ _ Hi p n d) as (pd & Hpd & Hat);
        [|by intros ?%elem_of_empty|done|done|].
      { exists t. split; [done|]. destruct Hg as [-> | ->]; simpl; lia. }
      exists pd. split; [done|by apply Hv].
    + apply Hv. exists s. split; [done|]. destruct s; simpl; try lia. done.
    + pose proof (depth_bound_le classes Start a). lia.
Qed.

Lemma lifecycle_returns_witness :
  ∃ a', initialize cyclic_pair 5 0 cyclic_registered = Ok a'.
Proof.
  apply (lifecycle_returns cyclic_pair 5 0 registered cyclic_registered).
  - exact cyclic_registered_reachable.
  - vm_compute. lia.
  - by vm_compute.
  - by vm_compute.
Defined.

(** ** Plugin pointers stay valid *)

Lemma plugin_requires_no_fault (Pre : application → Prop) reg visitor :
  ∀ PLUGINS,
  (∀ elem a, elem ∈ PLUGINS → Pre a →
     reg elem a ≠ Fault ∧
     ∀ p a1, reg elem a = Ok (p, a1) →
       visitor p a1 ≠ Fault ∧ ∀ a2, visitor p a1 = Ok a2 → Pre a2) →
  ∀ a, Pre a → plugin_requires reg visitor PLUGINS a ≠ Fault.
Proof.
  induction PLUGINS as [|elem rest IH]; simpl; intros Hstep a Ha; [done|].
  destruct (Hstep elem a) as [Hreg Hvis]; [by apply list_elem_of_here|done|].
  destruct (reg elem a) as [[p a1]|b| |] eqn:Hr; simpl; try done.
  destruct (Hvis p a1 eq_refl) as [Hv Hpre].
  destruct (visitor p a1) as [a2|b| |] eqn:Hvr; simpl; try done.
  apply IH; [|by apply Hpre].
  intros e b He. apply Hstep. by apply list_elem_of_further.
Qed.

Lemma register_plugin_no_fault classes fuel : ∀ P a,
  register_plugin classes fuel P a ≠ Fault.
Proof.
  induction fuel as [|fuel IH]; simpl; intros P a; [done|].
  destruct (find_plugin P a); [done|].
  match goal with |- context [plugin_requires ?r ?v ?l ?b] =>
    destruct (plugin_requires r v l b) as [a2|b2| |] eqn:E end; simpl; try done.
  exfalso. revert E. apply (plugin_requires_no_fault (λ _, True)); [|done].
  intros elem c _ _. split; [apply IH|]. by intros p c1 _.
Qed.

Lemma alive_grows a a' p s :
  grows a a' → get_state p a = Ok s → ∃ s', get_state p a' = Ok s'.
Proof.
  intros Hg (n & Hp)%get_state_Some.
  destruct (grows_store _ _ Hg p _ Hp) as ([s' n'] & Hp' & _).
  exists s'. apply get_state_Some. eauto.
Qed.

Lemma plugin_requires_advance_grows classes ph fuel PLUGINS a a' :
  plugin_requires (register_plugin classes fuel) (advance classes ph fuel)
    PLUGINS a = Ok a' → grows a a'.
Proof.
  intros H. eapply (plugin_requires_preorder grows); [| |exact H].
  - intros e b q b' Hb. by apply register_plugin_grows in Hb as [? _].
  - intros q b b' Hb. by eapply advance_grows.
Qed.

Lemma advance_no_fault classes ph fuel : ∀ this a s,
  sound a → get_state this a = Ok s →
  advance classes ph fuel this a ≠ Fault.
Proof.
  induction fuel as [|fuel IH]; simpl; intros this a s Hs Hthis; [done|].
  pose proof Hthis as (n & Ho)%get_state_Some.
  unfold deref at 1. rewrite Ho. simpl.
  assert (Hfin : ∀ b s', get_state this b = Ok s' →
            (s ← get_state this b;
             if decide (s = phase_to ph) then Ok b else AssertFail b) ≠ Fault).
  { intros b s' ->. simpl. by case_decide. }
  case_decide as Hfrom; [|by eapply Hfin].
  match goal with |- context [plugin_requires ?r ?v ?l ?b] =>
    destruct (plugin_requires r v l b) as [a2|b2| |] eqn:E end; simpl; try done.
  - apply plugin_requires_advance_grows in E.
    destruct (alive_grows _ _ this (phase_to ph) E) as (s' & Hs').
    { by eapply get_state_set_state_eq. }
    apply (Hfin _ s'). by rewrite get_state_notify.
  - exfalso. revert E. apply (plugin_requires_no_fault sound).
    + intros elem b _ Hb. split; [apply register_plugin_no_fault|].
      intros p b1 Hreg.
      pose proof (register_plugin_sound _ _ _ _ _ _ Hreg Hb) as Hb1.
      apply register_plugin_grows in Hreg as [_ Hp].
      destruct (sound_lookup b1 elem p Hb1 Hp) as (sp & Hsp).
      split; [eapply IH; [done|by eapply get_state_store]|].
      intros b2 Hadv. by eapply advance_sound.
    + by apply sound_set_state.
Qed.

(** X13: plugin objects are never destroyed, so a plugin pointer of an
    application a program can reach is never dangling.  Whatever the table
    of classes and the call depth, [register_plugin] does not fault, and on a
    live plugin neither do [initialize], [startup] and [shutdown]; every
    pointer held by the registry is live. *)
Theorem plugin_pointers_stay_valid classes a :
  reachable classes a →
  (∀ P p, find_plugin P a = Some p → ∃ s, get_state p a = Ok s) ∧
  (∀ fuel P, register_plugin classes fuel P a ≠ Fault) ∧
  (∀ fuel this s, get_state this a = Ok s →
     initialize classes fuel this a ≠ Fault ∧
     startup classes fuel this a ≠ Fault ∧
     shutdown this a ≠ Fault).
Proof.
  intros (Hsound & _)%reachable_tidy. split; [|split].
  - intros P p Hp. destruct (sound_lookup a P p Hsound Hp) as (s & Hs).
    exists s. by eapply get_state_store.
  - intros fuel P. apply register_plugin_no_fault.
  - intros fuel this s Hs. rewrite initialize_advance, startup_advance.
    split; [by eapply advance_no_fault|]. split; [by eapply advance_no_fault|].
    apply get_state_Some in Hs as (n & Ho). unfold shutdown, deref.
    rewrite Ho. simpl. by case_decide.
Qed.

Lemma plugin_pointers_stay_valid_witness :
  initialize net_config 3 0 net_started ≠ Fault ∧
  startup net_config 3 0 net_started ≠ Fault ∧
  shutdown 0 net_started ≠ Fault.
Proof.
  destruct (plugin_pointers_stay_valid net_config net_started
              net_started_reachable) as (_ & _ & H).
  apply (H 3 0 started). by vm_compute.
Defined.

(** ** A requirement that is out of step *)

Lemma advance_out_of_step classes ph fuel this n d pd sd a :
  sound a → depth_bound classes ph a < fuel →
  get_state this a = Ok (phase_from ph) → name this a = Ok n →
  d ∈ requires_of classes n → find_plugin d a = Some pd →
  get_state pd a = Ok sd → sd ≠ phase_from ph → sd ≠ phase_to ph →
  ∃ b, advance classes ph fuel this a = AssertFail b.
Proof.
  intros Hsound Hfuel Hthis Hn Hd Hpd Hsd Hne1 Hne2.
  destruct (advance classes ph fuel this a) as [a'|b| |] eqn:E; [|by eauto|..].
  - exfalso. destruct fuel as [|fuel]; [discriminate|]. simpl in E.
    apply name_Some in Hn as (s0 & Ho).
    assert (s0 = phase_from ph) as ->.
    { apply get_state_Some in Hthis as (n' & Ho'). congruence. }
    unfold deref in E. rewrite Ho in E. simpl in E.
    rewrite decide_True in E by done.
    apply bind_Ok in E as (a1 & H1 & _).
    apply bind_Ok in H1 as (a2 & H2 & _).
    destruct (plugin_requires_advance_all classes ph fuel _ _ _ H2 d Hd)
      as (pd' & Hpd' & Hst').
    pose proof (plugin_requires_advance_grows _ _ _ _ _ _ H2) as Hg.
    assert (pd' = pd) as ->.
    { unfold find_plugin in Hpd, Hpd'.
      pose proof (lookup_weaken _ _ _ _ Hpd (grows_plugins _ _ Hg)) as Hw.
      simpl in Hw. congruence. }
    assert (Hk : keeps sd (set_state this (phase_to ph) a) a2).
    { eapply (plugin_requires_preorder (keeps sd)); [| |exact H2].
      - intros e b q b' Hb. by eapply register_plugin_keeps.
      - intros q b b' Hb. by eapply advance_keeps. }
    assert (Hsd2 : get_state pd a2 = Ok sd).
    { apply Hk. rewrite get_state_set_state_ne; [done|].
      intros ->. congruence. }
    congruence.
  - by eapply advance_no_fault in E.
  - by eapply (advance_terminates classes ph fuel this a (proj2 Hsound)) in E.
Qed.

Lemma late_net_reachable : reachable net_config late_net.
Proof.
  exists 0.
  eapply rtc_l; [eapply (call_register_plugin net_config 3 "Config"); vm_compute; reflexivity|].
  eapply rtc_l; [eapply (call_initialize net_config 3 0); vm_compute; reflexivity|].
  eapply rtc_l; [eapply (call_startup net_config 3 0); vm_compute; reflexivity|].
  eapply rtc_l; [eapply (call_register_plugin net_config 3 "Net"); vm_compute; reflexivity|].
  vm_compute. apply rtc_refl.
Defined.

(** X14: a requirement that is out of step makes the transition abort.  In an
    application a program can reach, with a call depth above twice the number
    of classes: [initialize] on a [registered] plugin fails its assertion
    when a plugin it requires is already [started] or [stopped] (as when
    the plugin is registered after its requirement was started), and [startup] on an [initialized] plugin fails its assertion when a
    plugin it requires is [stopped]. *)
Theorem requirement_out_of_step_aborts classes fuel this n d pd sd a :
  reachable classes a → 2 * size classes < fuel →
  name this a = Ok n → d ∈ requires_of classes n →
  find_plugin d a = Some pd → get_state pd a = Ok sd →
  (get_state this a = Ok registered → sd = started ∨ sd = stopped →
   ∃ b, initialize classes fuel this a = AssertFail b) ∧
  (get_state this a = Ok initialized → sd = stopped →
   ∃ b, startup classes fuel this a = AssertFail b).
Proof.
  intros (Hsound & _)%reachable_tidy Hfuel Hn Hd Hpd Hsd. split.
  - intros Hthis Hor. rewrite initialize_advance.
    pose proof (depth_bound_le classes Init a).
    eapply (advance_out_of_step classes Init); try done; [lia|..];
      by destruct Hor as [-> | ->].
  - intros Hthis ->. rewrite startup_advance.
    pose proof (depth_bound_le classes Start a).
    eapply (advance_out_of_step classes Start); try done; lia.
Qed.

Lemma requirement_out_of_step_aborts_witness :
  ∃ b, initialize net_config 5 1 late_net = AssertFail b.
Proof.
  apply (requirement_out_of_step_aborts net_config 5 1 "Net" "Config" 0
           started late_net).
  - exact late_net_reachable.
  - vm_compute. lia.
  - by vm_compute.
  - vm_compute. apply list_elem_of_here.
  - by vm_compute.
  - by vm_compute.
  - by vm_compute.
  - by left.
Defined.

(** ** Shutdown of one plugin *)

(** X15: [plugin::shutdown] is idempotent and touches one plugin only.  When
    it returns, a second call changes nothing; the plugin is not [started];
    every other plugin keeps its state, every plugin its name; the registry
    and both order logs are the same, so a stopped plugin stays in
    [running_plugins].  On a [started] plugin the state becomes [stopped]
    before the hook [plugin_shutdown] runs. *)
Theorem shutdown_stops_once this a a' :
  shutdown this a = Ok a' →
  shutdown this a' = Ok a' ∧
  get_state this a' ≠ Ok started ∧
  (∀ q, q ≠ this → get_state q a' = get_state q a) ∧
  (∀ q, name q a' = name q a) ∧
  plugins a' = plugins a ∧
  initialized_plugins a' = initialized_plugins a ∧
  running_plugins a' = running_plugins a ∧
  (get_state this a = Ok started →
   get_state this a' = Ok stopped ∧
   trace a' = trace a ++ [SetState this stopped; PluginShutdown this]).
Proof.
  unfold shutdown, deref. intros H.
  destruct (plugin_store a !! this) as [[s n]|] eqn:Hl; [|done].
  simpl in H. case_decide as Hst; injection H as <-.
  - subst s.
    assert (Hl' : plugin_store
                    (log (PluginShutdown this) (set_state this stopped a))
                  !! this = Some (Plugin stopped n)).
    { simpl. by rewrite lookup_alter_eq, Hl. }
    split; [rewrite Hl'; simpl; by repeat case_decide|].
    split; [unfold get_state, deref; by rewrite Hl'|].
    split; [intros q Hq; by rewrite get_state_log, get_state_set_state_ne|].
    split; [intros q; apply name_set_state|].
    split; [done|]. split; [done|]. split; [done|].
    intros _. split; [unfold get_state, deref; by rewrite Hl'|].
    simpl. by rewrite <- app_assoc.
  - split; [rewrite Hl; simpl; by repeat case_decide|].
    split; [unfold get_state, deref; rewrite Hl; simpl; congruence|].
    split; [done|]. split; [done|]. split; [done|]. split; [done|].
    split; [done|]. unfold get_state, deref. rewrite Hl. simpl. congruence.
Qed.

Lemma shutdown_stops_once_witness :
  shutdown 0 (the net_started (shutdown 0 net_started))
  = Ok (the net_started (shutdown 0 net_started)) ∧
  running_plugins (the net_started (shutdown 0 net_started))
  = running_plugins net_started.
Proof.
  destruct (shutdown_stops_once 0 net_started
              (the net_started (shutdown 0 net_started)))
    as (H1 & _ & _ & _ & _ & _ & H2 & _); [by vm_compute|].
  split; [exact H1|exact H2].
Defined.

(** ** The two declaration registries side by side *)

(** X16: [get_method] and [get_channel] work on separate registries and
    leave the plugins alone.  Called in either order they give the same
    application and the same two objects, also when both use one
    declaration token; neither changes the plugin registry, a plugin's
    state, the order logs or the io_service. *)
Theorem get_method_get_channel_commute M C a :
  (get_channel C (get_method M a).2).2 = (get_method M (get_channel C a).2).2 ∧
  (get_channel C (get_method M a).2).1 = (get_channel C a).1 ∧
  (get_method M (get_channel C a).2).1 = (get_method M a).1 ∧
  (∀ b, b = (get_method M a).2 ∨ b = (get_channel C a).2 →
     plugins b = plugins a ∧ (∀ p, get_state p b = get_state p a) ∧
     initialized_plugins b = initialized_plugins a ∧
     running_plugins b = running_plugins a ∧
     get_io_service b = get_io_service a).
Proof.
  unfold get_method, get_channel, get_io_service.
  split; [|split; [|split]].
  - destruct (methods a !! decl_id M) eqn:E1;
      destruct (channels a !! decl_id C) eqn:E2; simpl; by rewrite ?E1, ?E2.
  - destruct (methods a !! decl_id M);
      destruct (channels a !! decl_id C) eqn:E2; simpl; by rewrite ?E2.
  - destruct (channels a !! decl_id C);
      destruct (methods a !! decl_id M) eqn:E1; simpl; by rewrite ?E1.
  - intros b [-> | ->].
    + by destruct (methods a !! decl_id M).
    + by destruct (channels a !! decl_id C).
Qed.
